(** * fobsvr: the refreshable authorization cache, its refresh driver and
      its HTTP readers

    A shallow embedding of the Go sources of fobsvr:
    - the cache: [cache], [newCache], [Fill], [Load], [Wait] and
      [calculateUsersHash];
    - the Keycloak client: [AccessUser], [newAccessUser],
      [firstElOrZeroVal] and [ListUsers];
    - [main]: the /healthz and /v1/fobs handlers and the Keycloak loop, in
      the first version of [main] and in its revision.

    Go library functions the code calls (crypto/sha256, encoding/hex,
    encoding/json, sort.Slice, strconv.Atoi) are modelled by executable
    definitions following the behaviour of the Go 1.21 standard library on a
    64-bit platform.  What the outside world answers (the directory, the
    parser of durations, which case of a [select] fires) is an argument of
    the function that asks. *)

From Stdlib Require Import ZArith String Ascii List.
From stdpp Require Import base option list numbers strings gmap sets sorting.
Import ListNotations.
Local Open Scope Z_scope.

(** ** Bytes and strings

    A Go [string] is a sequence of bytes; it is modelled by [string], whose
    characters are bytes.  A byte is read as a [Z] in [0, 256). *)

Definition byte_of_ascii (a : ascii) : Z := Z.of_N (N_of_ascii a).

Definition bytes_of_string (s : string) : list Z :=
  map byte_of_ascii (list_ascii_of_string s).

(** ** crypto/sha256 (FIPS 180-4), on 32-bit words held in [Z] *)

Module SHA256.

Definition mask32 : Z := 0xFFFFFFFF.
Definition w32 (x : Z) : Z := Z.land x mask32.
Definition add32 (x y : Z) : Z := w32 (x + y).
Definition rotr (n x : Z) : Z :=
  w32 (Z.lor (Z.shiftr x n) (Z.shiftl x (32 - n))).
Definition shr (n x : Z) : Z := Z.shiftr x n.

Definition Ch (x y z : Z) : Z :=
  Z.lxor (Z.land x y) (Z.land (Z.lxor x mask32) z).
Definition Maj (x y z : Z) : Z :=
  Z.lxor (Z.lxor (Z.land x y) (Z.land x z)) (Z.land y z).
Definition Sigma0 (x : Z) : Z := Z.lxor (Z.lxor (rotr 2 x) (rotr 13 x)) (rotr 22 x).
Definition Sigma1 (x : Z) : Z := Z.lxor (Z.lxor (rotr 6 x) (rotr 11 x)) (rotr 25 x).
Definition sigma0 (x : Z) : Z := Z.lxor (Z.lxor (rotr 7 x) (rotr 18 x)) (shr 3 x).
Definition sigma1 (x : Z) : Z := Z.lxor (Z.lxor (rotr 17 x) (rotr 19 x)) (shr 10 x).

(** The first 64 primes. *)
Definition is_prime (n : nat) : bool :=
  forallb (fun d => negb (n mod d =? 0)%nat) (seq 2 (n - 2)).
Definition primes : list Z := map Z.of_nat (filter is_prime (seq 2 310)).

(** The integer cube root, one bit at a time from bit [n-1] down. *)
Fixpoint cbrt_bits (n : nat) (x r : Z) : Z :=
  match n with
  | O => r
  | S n' =>
      let r' := r + 2 ^ Z.of_nat n' in
      if r' * r' * r' <=? x then cbrt_bits n' x r' else cbrt_bits n' x r
  end.

(** The round constants: the first 32 bits of the fractional parts of the
    cube roots of the primes. *)
Definition K : list Z :=
  map (fun p => w32 (cbrt_bits 40 (p * 2 ^ 96) 0)) primes.

(** The eight working variables / the chaining value. *)
Record digest := Digest {
  h0 : Z; h1 : Z; h2 : Z; h3 : Z; h4 : Z; h5 : Z; h6 : Z; h7 : Z }.

(** The initial value: the first 32 bits of the fractional parts of the
    square roots of the first eight primes. *)
Definition frac_sqrt (p : Z) : Z := w32 (Z.sqrt (p * 2 ^ 64)).

Definition init : digest :=
  Digest (frac_sqrt 2) (frac_sqrt 3) (frac_sqrt 5) (frac_sqrt 7)
         (frac_sqrt 11) (frac_sqrt 13) (frac_sqrt 17) (frac_sqrt 19).

(** Padding: a 1 bit, zeros up to 56 mod 64, the bit length on 64 bits. *)
Definition be_bytes (n : nat) (x : Z) : list Z :=
  map (fun i => Z.land (Z.shiftr x (8 * Z.of_nat i)) 0xFF) (rev (seq 0 n)).

Definition pad (msg : list Z) : list Z :=
  let len := Z.of_nat (length msg) in
  let zeros := Z.to_nat ((55 - len) mod 64) in
  msg ++ [0x80] ++ repeat 0 zeros ++ be_bytes 8 (Z.land (8 * len) 0xFFFFFFFFFFFFFFFF).

Definition be_word (b3 b2 b1 b0 : Z) : Z :=
  Z.lor (Z.lor (Z.lor (Z.shiftl b3 24) (Z.shiftl b2 16)) (Z.shiftl b1 8)) b0.

Fixpoint words (bs : list Z) : list Z :=
  match bs with
  | b3 :: b2 :: b1 :: b0 :: rest => be_word b3 b2 b1 b0 :: words rest
  | _ => []
  end.

(** The message schedule, most recent word first: the head of [ws] is
    W(t-1). *)
Fixpoint schedule (n : nat) (ws : list Z) : list Z :=
  match n with
  | O => ws
  | S n' =>
      let w := add32 (add32 (sigma1 (nth 1 ws 0)) (nth 6 ws 0))
                     (add32 (sigma0 (nth 14 ws 0)) (nth 15 ws 0)) in
      schedule n' (w :: ws)
  end.

Definition round (s : digest) (kw : Z * Z) : digest :=
  let '(k, w) := kw in
  let t1 := add32 (add32 (add32 (add32 (h7 s) (Sigma1 (h4 s)))
                                (Ch (h4 s) (h5 s) (h6 s))) k) w in
  let t2 := add32 (Sigma0 (h0 s)) (Maj (h0 s) (h1 s) (h2 s)) in
  Digest (add32 t1 t2) (h0 s) (h1 s) (h2 s) (add32 (h3 s) t1) (h4 s) (h5 s) (h6 s).

Definition add_digest (x y : digest) : digest :=
  Digest (add32 (h0 x) (h0 y)) (add32 (h1 x) (h1 y))
         (add32 (h2 x) (h2 y)) (add32 (h3 x) (h3 y))
         (add32 (h4 x) (h4 y)) (add32 (h5 x) (h5 y))
         (add32 (h6 x) (h6 y)) (add32 (h7 x) (h7 y)).

Definition block (s : digest) (blk : list Z) : digest :=
  let ws := rev (schedule 48 (rev (words blk))) in
  add_digest s (fold_left round (combine K ws) s).

Fixpoint blocks (fuel : nat) (s : digest) (bs : list Z) : digest :=
  match fuel with
  | O => s
  | S fuel' =>
      match bs with
      | [] => s
      | _ => blocks fuel' (block s (firstn 64 bs)) (skipn 64 bs)
      end
  end.

Definition digest_bytes (s : digest) : list Z :=
  be_bytes 4 (h0 s) ++ be_bytes 4 (h1 s) ++ be_bytes 4 (h2 s) ++
  be_bytes 4 (h3 s) ++ be_bytes 4 (h4 s) ++ be_bytes 4 (h5 s) ++
  be_bytes 4 (h6 s) ++ be_bytes 4 (h7 s).

(** [sha256.Sum256]: the 32-byte digest of [msg]. *)
Definition Sum256 (msg : list Z) : list Z :=
  let p := pad msg in
  digest_bytes (blocks (length p) init p).

End SHA256.

(** ** encoding/hex *)

Definition hextable : string := "0123456789abcdef".

Definition hex_digit (n : Z) : ascii :=
  match String.get (Z.to_nat n) hextable with
  | Some c => c
  | None => "0"%char
  end.

(** [hex.EncodeToString]: two lower-case digits per byte. *)
Fixpoint EncodeToString (bs : list Z) : string :=
  match bs with
  | [] => EmptyString
  | b :: rest =>
      String (hex_digit (Z.shiftr b 4))
        (String (hex_digit (Z.land b 0x0F)) (EncodeToString rest))
  end.

Definition sha256_hex (s : string) : string :=
  EncodeToString (SHA256.Sum256 (bytes_of_string s)).


(** ** strconv: integers to and from decimal text (Go [int] is 64 bits) *)

Definition minInt64 : Z := - 2 ^ 63.
Definition maxInt64 : Z := 2 ^ 63 - 1.
Definition maxUint64 : Z := 2 ^ 64 - 1.

(** Two's complement wrap-around of 64-bit signed arithmetic. *)
Definition wrap64 (x : Z) : Z := (x + 2 ^ 63) mod 2 ^ 64 - 2 ^ 63.

Definition is_digit (b : Z) : bool := (48 <=? b) && (b <=? 57).

(** The fast path of [strconv.Atoi]: digits only, no overflow possible. *)
Fixpoint atoi_digits (bs : list Z) (n : Z) : option Z :=
  match bs with
  | [] => Some n
  | ch :: rest =>
      if is_digit ch then atoi_digits rest (n * 10 + (ch - 48)) else None
  end.

(** [strconv.ParseUint(s, 10, 0)]: [inl] is a syntax error; [inr (v, r)] is
    the value with the range-error flag [r].  On overflow the function
    returns at once with the maximal value, without reading further. *)
Fixpoint parse_uint_digits (bs : list Z) (n : Z) : unit + Z * bool :=
  match bs with
  | [] => inr (n, false)
  | ch :: rest =>
      if is_digit ch then
        if n >=? maxUint64 / 10 + 1 then inr (maxUint64, true)
        else
          let n1 := n * 10 + (ch - 48) in
          if n1 >? maxUint64 then inr (maxUint64, true)
          else parse_uint_digits rest n1
      else inl tt
  end.

Definition ParseUint (bs : list Z) : unit + Z * bool :=
  match bs with
  | [] => inl tt
  | _ => parse_uint_digits bs 0
  end.

(** [strconv.ParseInt(s, 10, 0)]: the value and whether an error was
    returned (the value is 0 on a syntax error, clamped on a range error). *)
Definition ParseInt (bs : list Z) : Z * bool :=
  match bs with
  | [] => (0, true)
  | s0 :: rest =>
      let neg := s0 =? 45 in
      let body := if (s0 =? 43) || (s0 =? 45) then rest else bs in
      match ParseUint body with
      | inl _ => (0, true)
      | inr (un, _) =>
          let cutoff := 2 ^ 63 in
          if negb neg && (un >=? cutoff) then (cutoff - 1, true)
          else if neg && (un >? cutoff) then (- cutoff, true)
          else (if neg then - un else un, false)
      end
  end.

(** [strconv.Atoi]: value and error flag. *)
Definition Atoi (s : string) : Z * bool :=
  let bs := bytes_of_string s in
  let sLen := length bs in
  if ((0 <? sLen) && (sLen <? 19))%nat then
    match bs with
    | [] => (0, true)
    | s0 :: rest =>
        let signed := (s0 =? 45) || (s0 =? 43) in
        let body := if signed then rest else bs in
        if signed && (length body <? 1)%nat then (0, true)
        else
          match atoi_digits body 0 with
          | None => (0, true)
          | Some n => (if s0 =? 45 then - n else n, false)
          end
    end
  else ParseInt bs.

Fixpoint format_digits (fuel : nat) (n : Z) (acc : list Z) : list Z :=
  match fuel with
  | O => acc
  | S fuel' =>
      let acc' := (48 + n mod 10) :: acc in
      if n <? 10 then acc' else format_digits fuel' (n / 10) acc'
  end.

(** [strconv.FormatInt(n, 10)] for a 64-bit [n]. *)
Definition FormatInt (n : Z) : list Z :=
  if n <? 0 then 45 :: format_digits 20 (- n) [] else format_digits 20 n [].

(** ** unicode/utf8 and encoding/json *)

Definition RuneError : Z := 0xFFFD.

Definition cont (lo hi b : Z) : bool := (lo <=? b) && (b <=? hi).

(** [utf8.DecodeRuneInString] on a string whose first byte is not ASCII:
    the rune and its width; an invalid encoding is [(RuneError, 1)]. *)
Definition DecodeRune (bs : list Z) : Z * nat :=
  match bs with
  | [] => (RuneError, 0%nat)
  | s0 :: t =>
      if s0 <? 0x80 then (s0, 1%nat)
      else if (s0 <? 0xC2) || (0xF4 <? s0) then (RuneError, 1%nat)
      else
        let sz := if s0 <? 0xE0 then 2%nat else if s0 <? 0xF0 then 3%nat else 4%nat in
        let lo := if s0 =? 0xE0 then 0xA0 else if s0 =? 0xF0 then 0x90 else 0x80 in
        let hi := if s0 =? 0xED then 0x9F else if s0 =? 0xF4 then 0x8F else 0xBF in
        if (length bs <? sz)%nat then (RuneError, 1%nat)
        else
          match t with
          | s1 :: t1 =>
              if negb (cont lo hi s1) then (RuneError, 1%nat)
              else if (sz <=? 2)%nat then
                (Z.lor (Z.shiftl (Z.land s0 0x1F) 6) (Z.land s1 0x3F), 2%nat)
              else
                match t1 with
                | s2 :: t2 =>
                    if negb (cont 0x80 0xBF s2) then (RuneError, 1%nat)
                    else if (sz <=? 3)%nat then
                      (Z.lor (Z.lor (Z.shiftl (Z.land s0 0x0F) 12)
                                    (Z.shiftl (Z.land s1 0x3F) 6))
                             (Z.land s2 0x3F), 3%nat)
                    else
                      match t2 with
                      | s3 :: _ =>
                          if negb (cont 0x80 0xBF s3) then (RuneError, 1%nat)
                          else
                            (Z.lor (Z.lor (Z.lor (Z.shiftl (Z.land s0 0x07) 18)
                                                 (Z.shiftl (Z.land s1 0x3F) 12))
                                          (Z.shiftl (Z.land s2 0x3F) 6))
                                   (Z.land s3 0x3F), 4%nat)
                      | [] => (RuneError, 1%nat)
                      end
                | [] => (RuneError, 1%nat)
                end
          | [] => (RuneError, 1%nat)
          end
  end.

(** The ASCII bytes [json.Marshal] copies unchanged (its [htmlSafeSet]). *)
Definition htmlSafe (b : Z) : bool :=
  (0x20 <=? b) && (b <? 0x80) &&
  negb ((b =? 0x22) || (b =? 0x26) || (b =? 0x3C) || (b =? 0x3E) || (b =? 0x5C)).

Definition hex_byte (n : Z) : Z := byte_of_ascii (hex_digit n).

Definition escape_ascii (b : Z) : list Z :=
  if (b =? 0x5C) || (b =? 0x22) then [0x5C; b]
  else if b =? 0x0A then bytes_of_string "\n"
  else if b =? 0x0D then bytes_of_string "\r"
  else if b =? 0x09 then bytes_of_string "\t"
  else bytes_of_string "\u00" ++ [hex_byte (Z.shiftr b 4); hex_byte (Z.land b 0xF)].

(** The body of a JSON string, as the encoder's loop over the bytes of [s]
    writes it. *)
Fixpoint json_string_body (fuel : nat) (bs : list Z) : list Z :=
  match fuel with
  | O => []
  | S fuel' =>
      match bs with
      | [] => []
      | b :: rest =>
          if b <? 0x80 then
            if htmlSafe b then b :: json_string_body fuel' rest
            else escape_ascii b ++ json_string_body fuel' rest
          else
            let '(c, size) := DecodeRune bs in
            if (c =? RuneError) && (size =? 1)%nat then
              bytes_of_string ("\u" ++ "fffd") ++ json_string_body fuel' rest
            else if (c =? 0x2028) || (c =? 0x2029) then
              bytes_of_string "\u202" ++ [hex_byte (Z.land c 0xF)]
                ++ json_string_body fuel' (skipn size bs)
            else firstn size bs ++ json_string_body fuel' (skipn size bs)
      end
  end.

Definition json_string (s : string) : list Z :=
  let bs := bytes_of_string s in
  [0x22] ++ json_string_body (length bs) bs ++ [0x22].

(** ** The Keycloak client: users of the directory and their translation *)

Definition error := string.

(** The fields of [gocloak.User] that the code reads.  [ID] is a [*string]
    and [Attributes] a [*map[string][]string]; [None] is the nil pointer. *)
Record User := mkUser {
  ID : option string;
  Attributes : option (gmap string (list string)) }.

Record AccessUser := mkAccessUser {
  UserID : string;
  FobID : Z;
  QRID : Z;
  TTL : Z }.

(** [time.Duration] counts nanoseconds in an int64. *)
Definition Nanosecond : Z := 1.
Definition Millisecond : Z := 1000000 * Nanosecond.
Definition Second : Z := 1000 * Millisecond.
Definition Minute : Z := 60 * Second.
Definition Hour : Z := 60 * Minute.
Definition Milliseconds (d : Z) : Z := Z.quot d 1000000.

Definition firstElOrZeroVal {T} (zero : T) (slice : list T) : T :=
  match slice with
  | [] => zero
  | x :: _ => x
  end.

(** [attr[key]]: a missing key reads as the nil slice. *)
Definition attr_get (attr : gmap string (list string)) (key : string) : list string :=
  default [] (attr !! key).

Definition newAccessUser (kcuser : User) : option AccessUser :=
  match ID kcuser, Attributes kcuser with
  | Some id, Some attr =>
      let fobID := fst (Atoi (firstElOrZeroVal EmptyString (attr_get attr "keyfobID"))) in
      let qrID := fst (Atoi (firstElOrZeroVal EmptyString (attr_get attr "qrID"))) in
      if (fobID =? 0) && (qrID =? 0) then None
      else if String.eqb (firstElOrZeroVal EmptyString (attr_get attr "buildingAccessApprover")) EmptyString
      then None
      else Some {| UserID := id; FobID := fobID; QRID := qrID;
                   TTL := Milliseconds (wrap64 (Hour * 24)) |}
  | _, _ => None
  end.

(** What the directory answers to one request of the paging loop.  The
    members of a decoded page are taken to be records: a null member, which
    decodes to a nil pointer that [newAccessUser] would dereference, is not
    part of the model. *)
Inductive page :=
  | ParamsErr (e : error)          (* gocloak.GetQueryParams failed *)
  | GetErr (e : error)             (* the GET request failed *)
  | HttpError (status : Z)         (* answered with an HTTP error status:
                                      no Go error, [users] is left nil *)
  | Page (users : list User).      (* the members decoded from the answer *)

(** The directory as [ListUsers] sees it during one call: the outcome of
    [ensureToken] and the successive answers to the paged requests.  Past
    the end of [pages] the directory answers an empty page. *)
Record keycloak := mkKeycloak {
  token_err : option error;
  pages : list page }.

(** The inner loop [for _, user := range users]. *)
Fixpoint append_users (users : list User) (all : list AccessUser) : list AccessUser :=
  match users with
  | [] => all
  | user :: rest =>
      match newAccessUser user with
      | None => append_users rest all             (* continue *)
      | Some u => append_users rest (all ++ [u])
      end
  end.

(** The outer loop [for { ... }]. *)
Fixpoint ListUsers_loop (ps : list page) (all : list AccessUser)
  : error + list AccessUser :=
  match ps with
  | [] => inr all
  | ParamsErr e :: _ => inl e
  | GetErr e :: _ => inl e
  | HttpError _ :: _ => inr all            (* len(users) == 0: break *)
  | Page users :: rest =>
      if (length users =? 0)%nat then inr all
      else ListUsers_loop rest (append_users users all)
  end.

Definition ListUsers (k : keycloak) : error + list AccessUser :=
  match token_err k with
  | Some err => inl ("getting token: " ++ err)%string
  | None => ListUsers_loop (pages k) []
  end.

(** ** The cache: the fingerprint *)

(** An object key with its colon: ["key":]. *)
Definition json_key (k : string) : list Z :=
  [0x22] ++ bytes_of_string k ++ [0x22; 0x3A].

(** [json.Marshal] of one [AccessUser]; [fobID] and [qrID] are [omitempty]. *)
Definition json_AccessUser (u : AccessUser) : list Z :=
  [0x7B] ++ json_key "userID" ++ json_string (UserID u)
  ++ (if FobID u =? 0 then [] else [0x2C] ++ json_key "fobID" ++ FormatInt (FobID u))
  ++ (if QRID u =? 0 then [] else [0x2C] ++ json_key "qrID" ++ FormatInt (QRID u))
  ++ [0x2C] ++ json_key "ttl" ++ FormatInt (TTL u) ++ [0x7D].

Fixpoint json_elems (us : list AccessUser) : list Z :=
  match us with
  | [] => []
  | [u] => json_AccessUser u
  | u :: rest => json_AccessUser u ++ [0x2C] ++ json_elems rest
  end.

(** [json.Marshal(&users)]: a nil slice is [null]. *)
Definition json_users (users : option (list AccessUser)) : list Z :=
  match users with
  | None => bytes_of_string "null"
  | Some us => [0x5B] ++ json_elems us ++ [0x5D]
  end.

Definition calculateUsersHash (users : list AccessUser) : string :=
  let js := json_users (Some users) in
  let hash := SHA256.Sum256 js in
  EncodeToString hash.

(** ** sort.Slice

    [sort.Slice] is not stable.  For slices of at most 12 elements it runs
    the insertion sort below, as the loop over [i] and [j] of
    [insertionSortLessFunc]; the sorted prefix is kept reversed, its head
    being the element at [j-1].  For longer slices Go sorts by pattern
    defeating quicksort, which also yields a sorted permutation but may
    leave elements of equal key in another order; the model stands for it
    there. *)

Section Sort.
Context {A : Type} (less : A -> A -> bool).

(** The inner loop: [x] moves left while it is less than its left
    neighbour. *)
Fixpoint sift (x : A) (revp : list A) : list A :=
  match revp with
  | [] => [x]
  | y :: r => if less x y then y :: sift x r else x :: y :: r
  end.

Definition insertionSort (data : list A) : list A :=
  rev (fold_left (fun revp x => sift x revp) data []).
End Sort.

Definition lessFobID (a b : AccessUser) : bool := FobID a <? FobID b.

Definition sort_Slice (users : list AccessUser) : list AccessUser :=
  insertionSort lessFobID users.

(** ** The cache, its watchers and their channels *)

(** A channel value is a reference into the heap of channels. *)
Abbreviation chan := nat (only parsing).

Record chan_st := mkChan {
  capacity : nat;       (* make(chan struct{}, capacity) *)
  buffered : nat;       (* values sent and not yet received *)
  closed : bool }.

(** The fields of [cache] guarded by [lock].  [state] is a slice: [None] is
    the nil slice, [Some []] an empty one.  [watchers] is a map to
    [struct{}], that is a set. *)
Record cache := mkCache {
  state : option (list AccessUser);
  hash : string;
  watchers : gset chan }.

(** Where a goroutine stands inside a call of [Wait]. *)
Inductive wait_pc :=
  | AtSelect      (* registered, blocked in [select] *)
  | AtDelete      (* woken, about to [delete(c.watchers, ch)] *)
  | AtClose.      (* deregistered, about to [close(ch)] *)

(** The cache, the heap of channels, and the calls of [Wait] in progress,
    each known by the channel it made. *)
Record world := mkWorld {
  the_cache : cache;
  chans : list chan_st;
  waiting : gmap chan wait_pc }.

Definition newCache : cache := mkCache None EmptyString ∅.

Definition init_world : world := mkWorld newCache [] ∅.

(** [select { case ch <- struct{}{}: default: }].  [None] is a panic: the
    channel is closed (or the reference dangles). *)
Definition nb_send (ch : chan) (h : list chan_st) : option (list chan_st) :=
  st ← h !! ch;
  if closed st then None
  else if (buffered st <? capacity st)%nat
       then Some (<[ch := mkChan (capacity st) (S (buffered st)) false]> h)
       else Some h.

(** [for ch := range c.watchers { ... }] *)
Fixpoint notify (chs : list chan) (h : list chan_st) : option (list chan_st) :=
  match chs with
  | [] => Some h
  | ch :: rest => h' ← nb_send ch h; notify rest h'
  end.

(** [Fill]: the error returned and the world it leaves; [None] is a panic.
    [k] is what the directory answers during this call. *)
Definition Fill (k : keycloak) (w : world) : option (option error * world) :=
  match ListUsers k with
  | inl err => Some (Some err, w)
  | inr users =>
      let users := sort_Slice users in
      let hash' := calculateUsersHash users in
      let c := the_cache w in
      if decide (hash c = hash') then Some (None, w)   (* nothing has changed *)
      else
        h' ← notify (elements (watchers c)) (chans w);
        Some (None, mkWorld (mkCache (Some users) hash' (watchers c)) h' (waiting w))
  end.

Definition Load (w : world) : option (list AccessUser) * string :=
  (state (the_cache w), hash (the_cache w)).

(** [Wait], one atomic step at a time.  The first makes the channel and
    registers it under the lock. *)
Definition Wait_register (w : world) : chan * world :=
  let ch := length (chans w) in
  let c := the_cache w in
  (ch, mkWorld (mkCache (state c) (hash c) ({[ch]} ∪ watchers c))
               (chans w ++ [mkChan 1 0 false])
               (<[ch := AtSelect]> (waiting w))).

(** [case <-ch]: enabled when a value is buffered (or the channel closed). *)
Definition Wait_recv (ch : chan) (w : world) : option world :=
  match waiting w !! ch, chans w !! ch with
  | Some AtSelect, Some st =>
      if (0 <? buffered st)%nat then
        Some (mkWorld (the_cache w)
                (<[ch := mkChan (capacity st) (pred (buffered st)) (closed st)]> (chans w))
                (<[ch := AtDelete]> (waiting w)))
      else if closed st then
        Some (mkWorld (the_cache w) (chans w) (<[ch := AtDelete]> (waiting w)))
      else None
  | _, _ => None
  end.

(** [case <-t.C] *)
Definition Wait_timer (ch : chan) (w : world) : option world :=
  match waiting w !! ch with
  | Some AtSelect =>
      Some (mkWorld (the_cache w) (chans w) (<[ch := AtDelete]> (waiting w)))
  | _ => None
  end.

(** [c.lock.Lock(); delete(c.watchers, ch); c.lock.Unlock()] *)
Definition Wait_delete (ch : chan) (w : world) : option world :=
  match waiting w !! ch with
  | Some AtDelete =>
      let c := the_cache w in
      Some (mkWorld (mkCache (state c) (hash c) (watchers c ∖ {[ch]}))
              (chans w) (<[ch := AtClose]> (waiting w)))
  | _ => None
  end.

(** [close(ch)], after which the call returns; closing a closed channel
    panics. *)
Definition Wait_close (ch : chan) (w : world) : option world :=
  match waiting w !! ch, chans w !! ch with
  | Some AtClose, Some st =>
      if closed st then None
      else Some (mkWorld (the_cache w)
                   (<[ch := mkChan (capacity st) (buffered st) true]> (chans w))
                   (base.delete ch (waiting w)))
  | _, _ => None
  end.

(** The atomic steps of the goroutines that touch the cache. *)
Inductive label :=
  | LFill (k : keycloak)
  | LLoad
  | LRegister
  | LRecv (ch : chan)
  | LTimer (ch : chan)
  | LDelete (ch : chan)
  | LClose (ch : chan).

Definition step (l : label) (w : world) : option world :=
  match l with
  | LFill k => snd <$> Fill k w
  | LLoad => Some w
  | LRegister => Some (snd (Wait_register w))
  | LRecv ch => Wait_recv ch w
  | LTimer ch => Wait_timer ch w
  | LDelete ch => Wait_delete ch w
  | LClose ch => Wait_close ch w
  end.

(** An interleaving of such steps. *)
Fixpoint run (ls : list label) (w : world) : option world :=
  match ls with
  | [] => Some w
  | l :: rest => w' ← step l w; run rest w'
  end.

Definition reachable (w : world) : Prop := ∃ ls, run ls init_world = Some w.

(** Which case of the [select] of [Wait] fires. *)
Inductive wake := Notified | TimedOut.

(** A whole call of [Wait(period)] by one reader: during its [select] the
    refresh driver calls [Fill] once per element of [fills].  Real time is
    not modelled: [how] tells which case of the [select] is taken. *)
Definition Wait (period : Z) (fills : list keycloak) (how : wake) (w : world)
  : option world :=
  let '(ch, w1) := Wait_register w in
  w2 ← run (map LFill fills) w1;
  w3 ← match how with
        | Notified => Wait_recv ch w2
        | TimedOut => Wait_timer ch w2
        end;
  w4 ← Wait_delete ch w3;
  Wait_close ch w4.

(** ** main: the HTTP readers *)

Record request := mkRequest {
  query_wait : string;        (* r.URL.Query().Get("wait") *)
  If_None_Match : string }.   (* r.Header.Get("If-None-Match") *)

Record response := mkResponse {
  status : Z;
  headers : list (string * string);
  body : list Z }.

(** [http.Error(w, msg, code)] *)
Definition http_Error (msg : string) (code : Z) : response :=
  mkResponse code
    [("Content-Type", "text/plain; charset=utf-8");
     ("X-Content-Type-Options", "nosniff")]%string
    (bytes_of_string msg ++ [0x0A]).

(** [w.WriteHeader(code)] and nothing else. *)
Definition just_status (code : Z) : response := mkResponse code [] [].

(** The first version of [main] and its revision. *)
Inductive version := V1 | V2.

Section Handlers.
(** [time.ParseDuration], left open. *)
Variable ParseDuration : string -> error + Z.

(** The common start of the /v1/fobs handlers: an answer at once, or the
    world after the optional wait. *)
Definition handle_wait (r : request) (fills : list keycloak) (how : wake)
    (w : world) : option (response + world) :=
  if decide (query_wait r = EmptyString) then Some (inr w)
  else
    match ParseDuration (query_wait r) with
    | inl err => Some (inl (http_Error err 400))
    | inr waitDuration => inr <$> Wait waitDuration fills how w
    end.

(** The end they share: the revalidation and the JSON answer. *)
Definition answer (users : option (list AccessUser)) (hash : string)
    (r : request) : response :=
  if decide (hash ≠ EmptyString ∧ hash = If_None_Match r) then just_status 304
  else
    mkResponse 200
      [("ETag", hash); ("Content-Type", "application/json")]%string
      (json_users users ++ [0x0A]).

(** What follows [cache.Load()]: the first version answers 412 to a nil
    snapshot, the revised one has no such test. *)
Definition after_Load (v : version) (users : option (list AccessUser))
    (hash : string) (r : request) : response :=
  match v, users with
  | V1, None => just_status 412
  | _, _ => answer users hash r
  end.

(** GET /v1/fobs: the world after the request and the answer. *)
Definition get_fobs (v : version) (r : request) (fills : list keycloak)
    (how : wake) (w : world) : option (world * response) :=
  o ← handle_wait r fills how w;
  match o with
  | inl resp => Some (w, resp)
  | inr w' =>
      let '(users, hash) := Load w' in
      Some (w', after_Load v users hash r)
  end.
End Handlers.

(** GET /healthz *)
Definition get_healthz (v : version) (w : world) : response :=
  match v with
  | V1 => just_status 204
  | V2 =>
      match fst (Load w) with
      | None => just_status 500   (* wait for cache to warm *)
      | Some _ => just_status 204
      end
  end.

(** ** main: the Keycloak loop *)

(** The statements between the call of [Fill] and the sleep: the new value
    of [lastRetry], which is the time slept. *)
Definition backoff (resync lastRetry : Z) : Z :=
  let lastRetry := if lastRetry =? 0 then wrap64 (Millisecond * 250) else lastRetry in
  let lastRetry := wrap64 (lastRetry + Z.quot lastRetry 2) in
  if lastRetry >? resync then resync else lastRetry.

(** Where the loop stands. *)
Inductive loop_pc :=
  | AtRange      (* blocked in [for range refresh] *)
  | AtFill.      (* about to call [cache.Fill()] *)

Record driver := mkDriver {
  pc : loop_pc;
  lastRetry : Z;
  refresh : nat }.     (* values buffered in the channel [refresh], of capacity 1 *)

(** The second version puts one value in [refresh] before the loop
    starts. *)
Definition init_driver (v : version) : driver :=
  mkDriver AtRange 0 (match v with V1 => 0 | V2 => 1 end).

Inductive event :=
  | EvFill (err : option error)    (* [cache.Fill()] returned [err] *)
  | EvSleep (d : Z).               (* [time.Sleep(d)] *)

Inductive dlabel :=
  | DTrigger                       (* webhook or ticker: non-blocking send *)
  | DRecv                          (* the loop receives from [refresh] *)
  | DFill (err : option error).    (* one pass of the loop body *)

(** The body of the loop from [cache.Fill()] on, given what [Fill]
    returned. *)
Definition loop_body (v : version) (resync : Z) (err : option error) (d : driver)
  : driver * list event :=
  match v, err with
  | V2, None =>
      (* lastRetry = 0; continue *)
      (mkDriver AtRange 0 (refresh d), [EvFill err])
  | V2, Some _ =>
      let l := backoff resync (lastRetry d) in
      (mkDriver AtRange l (refresh d), [EvFill err; EvSleep l])
  | V1, _ =>
      let l0 := match err with Some _ => lastRetry d | None => 0 end in
      let l := backoff resync l0 in
      (* goto start *)
      (mkDriver AtFill l (refresh d), [EvFill err; EvSleep l])
  end.

Definition dstep (v : version) (resync : Z) (l : dlabel) (d : driver)
  : option (driver * list event) :=
  match l with
  | DTrigger =>
      Some (mkDriver (pc d) (lastRetry d)
              (if (refresh d <? 1)%nat then S (refresh d) else refresh d), [])
  | DRecv =>
      match pc d, refresh d with
      | AtRange, S n => Some (mkDriver AtFill (lastRetry d) n, [])
      | _, _ => None
      end
  | DFill err =>
      match pc d with
      | AtFill => Some (loop_body v resync err d)
      | AtRange => None
      end
  end.

Fixpoint drun (v : version) (resync : Z) (ls : list dlabel) (d : driver)
  : option (driver * list event) :=
  match ls with
  | [] => Some (d, [])
  | l :: rest =>
      '(d1, ev1) ← dstep v resync l d;
      '(d2, ev2) ← drun v resync rest d1;
      Some (d2, ev1 ++ ev2)
  end.

(** The delays slept on [n] failed calls of [Fill] in a row. *)
Fixpoint delays (resync : Z) (n : nat) (lastRetry : Z) : list Z :=
  match n with
  | O => []
  | S n' => let l := backoff resync lastRetry in l :: delays resync n' l
  end.

(** ** Vocabulary of the statements *)

(** The records [ListUsers] reads when no request fails: the pages up to
    the first empty one or the first HTTP error status. *)
Fixpoint fetched (ps : list page) : list User :=
  match ps with
  | Page users :: rest =>
      if (length users =? 0)%nat then [] else users ++ fetched rest
  | _ => []
  end.

(** The conditions under which [newAccessUser] accepts a record. *)
Definition accepted (u : User) : Prop :=
  ∃ id attr,
    ID u = Some id ∧ Attributes u = Some attr ∧
    (fst (Atoi (firstElOrZeroVal EmptyString (attr_get attr "keyfobID"))) ≠ 0 ∨
     fst (Atoi (firstElOrZeroVal EmptyString (attr_get attr "qrID"))) ≠ 0) ∧
    firstElOrZeroVal EmptyString (attr_get attr "buildingAccessApprover") ≠ EmptyString.

(** Comparison functions that compare an integer key, as the one [Fill]
    passes to [sort.Slice], and the order they sort into. *)
Definition key_less {A} (key : A -> Z) (a b : A) : bool := key a <? key b.
Definition key_le {A} (key : A -> Z) (a b : A) : Prop := key a <= key b.

(** What a non-blocking send does to a channel that is open. *)
Definition signal (st : chan_st) : chan_st :=
  if (buffered st <? capacity st)%nat
  then mkChan (capacity st) (S (buffered st)) false
  else st.

(** The invariant of the worlds the program can reach. *)
Record inv (w : world) : Prop := mkInv {
  inv_unwarmed : state (the_cache w) = None -> hash (the_cache w) = EmptyString;
  inv_hash : ∀ us, state (the_cache w) = Some us ->
               hash (the_cache w) = calculateUsersHash us;
  inv_watchers : ∀ ch, ch ∈ watchers (the_cache w) ↔
               waiting w !! ch = Some AtSelect ∨ waiting w !! ch = Some AtDelete;
  inv_chans : ∀ ch p, waiting w !! ch = Some p ->
               ∃ st, chans w !! ch = Some st ∧ closed st = false ∧ capacity st = 1%nat }.

(** A step that is not a successful fetch of [Fill]. *)
Definition no_fetch (l : label) : Prop :=
  match l with
  | LFill k => ∃ err, ListUsers k = inl err
  | _ => True
  end.

(** Calls of [Wait] one after the other. *)
Fixpoint Wait_cycles (cycles : list (Z * list keycloak * wake)) (w : world)
  : option world :=
  match cycles with
  | [] => Some w
  | (period, fills, how) :: rest =>
      w' ← Wait period fills how w; Wait_cycles rest w'
  end.

(** A request whose [wait] parameter does not parse is answered 400 before
    the cache is read. *)
Definition rejected (ParseDuration : string -> error + Z) (r : request) : Prop :=
  query_wait r ≠ EmptyString ∧ ∃ err, ParseDuration (query_wait r) = inl err.

(** The answer of the revised /v1/fobs for a cache never filled: no ETag
    value and the JSON text [null]. *)
Definition unwarmed_answer : response :=
  mkResponse 200
    [("ETag", EmptyString); ("Content-Type", "application/json")]%string
    (bytes_of_string "null" ++ [0x0A]).

(** The answer that carries the list [us] and its fingerprint. *)
Definition list_answer (us : list AccessUser) : response :=
  mkResponse 200
    [("ETag", calculateUsersHash us); ("Content-Type", "application/json")]%string
    (json_users (Some us) ++ [0x0A]).

(** The times slept in a trace of the loop. *)
Fixpoint sleeps (evs : list event) : list Z :=
  match evs with
  | [] => []
  | EvSleep d :: rest => d :: sleeps rest
  | EvFill _ :: rest => sleeps rest
  end.

(** [n] refreshes that fail one after the other: the first version retries
    by itself, the revised one on the next trigger. *)
Fixpoint failures (v : version) (e : error) (n : nat) : list dlabel :=
  match n with
  | O => []
  | S n' =>
      match v with
      | V1 => DFill (Some e) :: failures v e n'
      | V2 => DTrigger :: DRecv :: DFill (Some e) :: failures v e n'
      end
  end.

(** ** Concrete directories and worlds, for the examples *)

Definition approved : gmap string (list string) :=
  {[ "buildingAccessApprover"%string := ["admin"%string] ]}.

(** A member with a fob, one with no credential, two with a QR code only. *)
Definition user_b : User :=
  mkUser (Some "b"%string) (Some (<["keyfobID"%string := ["5"%string]]> approved)).
Definition user_a : User :=
  mkUser (Some "a"%string) (Some approved).
Definition user_q1 : User :=
  mkUser (Some "q1"%string) (Some (<["qrID"%string := ["7"%string]]> approved)).
Definition user_q2 : User :=
  mkUser (Some "q2"%string) (Some (<["qrID"%string := ["9"%string]]> approved)).

Definition entry_b : AccessUser := mkAccessUser "b" 5 0 86400000.
Definition entry_q1 : AccessUser := mkAccessUser "q1" 0 7 86400000.
Definition entry_q2 : AccessUser := mkAccessUser "q2" 0 9 86400000.

Definition k_b : keycloak := mkKeycloak None [Page [user_a; user_b]].
Definition k_q12 : keycloak := mkKeycloak None [Page [user_q1; user_q2]].
Definition k_q21 : keycloak := mkKeycloak None [Page [user_q2; user_q1]].
Definition k_down : keycloak := mkKeycloak (Some "connection refused"%string) [].
(** The directory answers the first request with status 503. *)
Definition k_503 : keycloak := mkKeycloak None [HttpError 503].
(** It answers a first page, then status 429. *)
Definition k_429 : keycloak := mkKeycloak None [Page [user_b; user_q1]; HttpError 429].

(** The world in which one reader is blocked in [Wait] and the cache has
    not been filled. *)
Definition world_one_waiter : world := snd (Wait_register init_world).

(** ** The Keycloak client: the token

    [ensureToken] keeps the token and the time it was fetched.  What the
    clock, the two credential files and the login request answer during one
    call is the argument [e]; the calls made are returned as a trace. *)

Record JWT := mkJWT {
  AccessToken : string;
  ExpiresIn : Z }.

Record token_state := mkTokenState {
  token : option JWT;          (* nil before the first login *)
  tokenFetchTime : Z }.

Record token_env := mkTokenEnv {
  since : Z;                                        (* time.Since(k.tokenFetchTime) *)
  client_id : error + string;                       (* os.ReadFile(".../client-id") *)
  client_secret : error + string;                   (* os.ReadFile(".../client-secret") *)
  LoginClient : string -> string -> string -> error + JWT;
  now : Z }.                                        (* time.Now() *)

Inductive io :=
  | IORead (path : string)
  | IOLogin (clientID clientSecret realm : string).

Definition realm : string := "master".
Definition client_id_path : string := "/var/lib/keycloak/client-id".
Definition client_secret_path : string := "/var/lib/keycloak/client-secret".

(** [(time.Duration(k.token.ExpiresIn) * time.Second) / 2] *)
Definition half_life (t : JWT) : Z :=
  Z.quot (wrap64 (wrap64 (ExpiresIn t) * Second)) 2.

(** The part of [ensureToken] after the test of the cached token. *)
Definition fetch_token (e : token_env) (k : token_state)
  : (error + JWT) * token_state * list io :=
  match client_id e with
  | inl err => (inl ("reading client id: " ++ err)%string, k, [IORead client_id_path])
  | inr clientID =>
      match client_secret e with
      | inl err =>
          (inl ("reading client secret: " ++ err)%string, k,
           [IORead client_id_path; IORead client_secret_path])
      | inr clientSecret =>
          let tr := [IORead client_id_path; IORead client_secret_path;
                     IOLogin clientID clientSecret realm] in
          match LoginClient e clientID clientSecret realm with
          | inl err => (inl err, k, tr)
          | inr t => (inr t, mkTokenState (Some t) (now e), tr)
          end
      end
  end.

Definition ensureToken (e : token_env) (k : token_state)
  : (error + JWT) * token_state * list io :=
  match token k with
  | Some t =>
      if since e <? half_life t then (inr t, k, []) else fetch_token e k
  | None => fetch_token e k
  end.

(** Calls of [ensureToken] one after the other: the last state and the
    whole trace. *)
Fixpoint ensureToken_calls (es : list token_env) (k : token_state)
  : token_state * list io :=
  match es with
  | [] => (k, [])
  | e :: rest =>
      let '(_, k1, tr1) := ensureToken e k in
      let '(k2, tr2) := ensureToken_calls rest k1 in
      (k2, tr1 ++ tr2)
  end.

(** ** The Keycloak client: the webhook *)

Record Webhook := mkWebhook {
  WebhookID : string;          (* the field [ID] *)
  Enabled : bool;
  URL : string;
  EventTypes : list string }.

(** What the directory answers during one call of [EnsureWebhook]: to the
    listing (a decoded element may be a nil pointer) and to the creation. *)
Record webhook_env := mkWebhookEnv {
  list_token_err : option error;                    (* ensureToken in ListWebhooks *)
  hooks_answer : error + list (option Webhook);     (* the GET and its decoded result *)
  create_token_err : option error;                  (* ensureToken in CreateWebhook *)
  create_err : option error }.                      (* the POST *)

Definition ListWebhooks (e : webhook_env) : error + list (option Webhook) :=
  match list_token_err e with
  | Some err => inl ("getting token: " ++ err)%string
  | None => hooks_answer e
  end.

(** [CreateWebhook]: the error returned and the bodies posted. *)
Definition CreateWebhook (e : webhook_env) (webhook : Webhook)
  : option error * list Webhook :=
  match create_token_err e with
  | Some err => (Some ("getting token: " ++ err)%string, [])
  | None => (create_err e, [webhook])
  end.

(** [for _, hook := range hooks { if hook.URL == url { return nil } }]:
    whether the loop returns; [None] is the panic of reading [hook.URL]
    through a nil pointer. *)
Fixpoint hook_exists (url : string) (hooks : list (option Webhook)) : option bool :=
  match hooks with
  | [] => Some false
  | None :: _ => None
  | Some hook :: rest =>
      if decide (URL hook = url) then Some true else hook_exists url rest
  end.

(** [EnsureWebhook]: the error returned and the bodies posted; [None] is a
    panic. *)
Definition EnsureWebhook (e : webhook_env) (callbackURL : string)
  : option (option error * list Webhook) :=
  match ListWebhooks e with
  | inl err => Some (Some ("listing: " ++ err)%string, [])
  | inr hooks =>
      let url := (callbackURL ++ "/webhook")%string in
      found ← hook_exists url hooks;
      if found : bool then Some (None, [])   (* already exists *)
      else Some (CreateWebhook e (mkWebhook EmptyString true url ["admin.*"%string]))
  end.

(** The start of [main]: the webhook is ensured when a callback URL is
    given, and an error there stops the process. *)
Inductive startup := Started (posted : list Webhook) | Panicked.

Definition main_startup (e : webhook_env) (callbackURL : string) : startup :=
  if decide (callbackURL = EmptyString) then Started []
  else
    match EnsureWebhook e callbackURL with
    | Some (None, posted) => Started posted
    | _ => Panicked
    end.

(** ** More vocabulary *)

(** Whether one of the calls of [Fill] that fetch [fills] in turn changes
    the fingerprint, which is [h] before the first. *)
Fixpoint any_change (fills : list keycloak) (h : string) : bool :=
  match fills with
  | [] => false
  | k :: rest =>
      match ListUsers k with
      | inl _ => any_change rest h
      | inr users =>
          if decide (h = calculateUsersHash (sort_Slice users))
          then any_change rest h else true
      end
  end.

(** The error of the first request that fails before an empty page or an
    HTTP error status ends the paging. *)
Fixpoint first_error (ps : list page) : option error :=
  match ps with
  | [] => None
  | ParamsErr e :: _ => Some e
  | GetErr e :: _ => Some e
  | HttpError _ :: _ => None
  | Page users :: rest =>
      if (length users =? 0)%nat then None else first_error rest
  end.

(** Counting the steps of a trace of the loop. *)
Definition is_trigger (l : dlabel) : bool :=
  match l with DTrigger => true | _ => false end.
Definition is_recv (l : dlabel) : bool :=
  match l with DRecv => true | _ => false end.
Definition is_fill (l : dlabel) : bool :=
  match l with DFill _ => true | _ => false end.
Definition count (f : dlabel -> bool) (ls : list dlabel) : nat :=
  length (filter (fun l => f l = true) ls).

(** Concrete answers, for the examples. *)
Definition token_env_ok : token_env :=
  mkTokenEnv (10 * Second) (inr "fobsvr"%string) (inr "secret"%string)
    (fun _ _ _ => inr (mkJWT "tok2" 60)) (100 * Second).
Definition token_env_no_file : token_env :=
  mkTokenEnv (40 * Second) (inl "no such file"%string) (inr "secret"%string)
    (fun _ _ _ => inr (mkJWT "tok2" 60)) (100 * Second).
Definition token_state_cached : token_state :=
  mkTokenState (Some (mkJWT "tok1" 60)) 0.

Definition hook_here : Webhook :=
  mkWebhook "7" false "http://fobsvr/webhook" [].
Definition webhook_env_with (hooks : list Webhook) : webhook_env :=
  mkWebhookEnv None (inr (map Some hooks)) None None.

(** One pass of the body of the loop on the cache: [err := cache.Fill()]
    and what follows it, when the directory answers [k]. *)
Definition loop_pass (v : version) (resync : Z) (k : keycloak) (d : driver)
    (w : world) : option (driver * list event * world) :=
  match pc d with
  | AtFill =>
      '(err, w') ← Fill k w;
      let '(d', evs) := loop_body v resync err d in
      Some (d', evs, w')
  | AtRange => None
  end.

(** * Theorems *)

(** ** The library models agree with known values *)

Example sha256_constants :
  length SHA256.K = 64%nat ∧
  firstn 2 SHA256.K = [0x428a2f98; 0x71374491] ∧ last SHA256.K = Some 0xc67178f2 ∧
  SHA256.h0 SHA256.init = 0x6a09e667 ∧ SHA256.h7 SHA256.init = 0x5be0cd19.
Proof. vm_compute. done. Qed.

Example sha256_empty :
  sha256_hex EmptyString
  = "e3b0c44298fc1c149afbf4c8996fb92427ae41e4649b934ca495991b7852b855"%string.
Proof. vm_compute. reflexivity. Qed.

Example sha256_abc :
  sha256_hex "abc"
  = "ba7816bf8f01cfea414140de5dae2223b00361a396177a9cb410ff61f20015ad"%string.
Proof. vm_compute. reflexivity. Qed.

Example sha256_two_blocks :
  sha256_hex "abcdbcdecdefdefgefghfghighijhijkijkljklmklmnlmnomnopnopq"
  = "248d6a61d20638b8e5c026930c3e6039a33ce45964ff2167f6ecedd419db06c1"%string.
Proof. vm_compute. reflexivity. Qed.

Example Atoi_values :
  map Atoi ["12"; "-5"; "+"; "x"; "1_0"; "0000000000000000000000012";
            "9223372036854775807"; "9223372036854775808";
            "99999999999999999999x"; "-99999999999999999999"]%string
  = [(12, false); (-5, false); (0, true); (0, true); (0, true); (12, false);
     (maxInt64, false); (maxInt64, true); (maxInt64, true); (minInt64, true)].
Proof. vm_compute. reflexivity. Qed.

Example Atoi_empty : Atoi EmptyString = (0, true).
Proof. reflexivity. Qed.

Example json_users_example :
  json_users (Some [mkAccessUser "a" 0 7 86400000; mkAccessUser "b<" 5 0 86400000])
  = bytes_of_string "[{" ++ json_key "userID" ++ [0x22] ++ bytes_of_string "a" ++ [0x22; 0x2C]
    ++ json_key "qrID" ++ bytes_of_string "7," ++ json_key "ttl" ++ bytes_of_string "86400000},{"
    ++ json_key "userID" ++ [0x22] ++ bytes_of_string "b" ++ [0x5C] ++ bytes_of_string "u003c"
    ++ [0x22; 0x2C]
    ++ json_key "fobID" ++ bytes_of_string "5," ++ json_key "ttl" ++ bytes_of_string "86400000}]".
Proof. vm_compute. reflexivity. Qed.

Example sort_Slice_example :
  map UserID (sort_Slice [mkAccessUser "c" 5 0 1; mkAccessUser "a" 0 7 1;
                          mkAccessUser "b" 0 9 1; mkAccessUser "d" 2 0 1])
  = ["a"; "b"; "d"; "c"]%string.
Proof. reflexivity. Qed.

(** ** newAccessUser *)

Lemma newAccessUser_Some (kcuser : User) (a : AccessUser) :
  newAccessUser kcuser = Some a ->
  ∃ id attr,
    ID kcuser = Some id ∧ Attributes kcuser = Some attr ∧
    a = {| UserID := id;
           FobID := fst (Atoi (firstElOrZeroVal EmptyString (attr_get attr "keyfobID")));
           QRID := fst (Atoi (firstElOrZeroVal EmptyString (attr_get attr "qrID")));
           TTL := 86400000 |} ∧
    (FobID a ≠ 0 ∨ QRID a ≠ 0) ∧
    firstElOrZeroVal EmptyString (attr_get attr "buildingAccessApprover") ≠ EmptyString.
Proof.
  unfold newAccessUser.
  destruct (ID kcuser) as [id|]; [|discriminate].
  destruct (Attributes kcuser) as [attr|]; [|discriminate].
  set (fob := fst (Atoi _)). set (qr := fst (Atoi (firstElOrZeroVal _ (attr_get attr "qrID")))).
  destruct ((fob =? 0) && (qr =? 0)) eqn:Hz; [discriminate|].
  destruct (String.eqb _ _) eqn:Happ; [discriminate|].
  intros [= <-]. exists id, attr. repeat split; try reflexivity.
  - simpl. apply andb_false_iff in Hz as [Hz|Hz]; apply Z.eqb_neq in Hz; auto.
  - intros Heq. apply String.eqb_neq in Happ. contradiction.
Qed.

Lemma newAccessUser_accepted (kcuser : User) :
  is_Some (newAccessUser kcuser) ↔ accepted kcuser.
Proof.
  split.
  - intros [a Ha]. apply newAccessUser_Some in Ha as (id & attr & Hid & Hattr & -> & Hne & Happ).
    exists id, attr. simpl in Hne. auto.
  - intros (id & attr & Hid & Hattr & Hne & Happ).
    unfold newAccessUser. rewrite Hid, Hattr.
    destruct (_ && _) eqn:Hz.
    + apply andb_true_iff in Hz as [H1 H2]. apply Z.eqb_eq in H1, H2. destruct Hne; contradiction.
    + apply String.eqb_neq in Happ. rewrite Happ. eauto.
Qed.

Lemma newAccessUser_rejected (kcuser : User) :
  ¬ accepted kcuser -> newAccessUser kcuser = None.
Proof.
  intros Hn. destruct (newAccessUser kcuser) eqn:E; [|reflexivity].
  exfalso. apply Hn, newAccessUser_accepted. eauto.
Qed.

(** ** ListUsers *)

Lemma append_users_omap (users : list User) (all : list AccessUser) :
  append_users users all = all ++ omap newAccessUser users.
Proof.
  revert all. induction users as [|u users IH]; intros all; simpl.
  - by rewrite app_nil_r.
  - destruct (newAccessUser u) as [a|]; rewrite IH; [|done].
    by rewrite <- app_assoc.
Qed.

Lemma ListUsers_loop_fetched (ps : list page) (all r : list AccessUser) :
  ListUsers_loop ps all = inr r -> r = all ++ omap newAccessUser (fetched ps).
Proof.
  revert all. induction ps as [|p ps IH]; intros all; simpl.
  - intros [= <-]. by rewrite app_nil_r.
  - destruct p as [e|e|st|users]; try discriminate.
    { intros [= <-]. by rewrite app_nil_r. }
    destruct (length users =? 0)%nat.
    + intros [= <-]. by rewrite app_nil_r.
    + intros H. apply IH in H. rewrite H, append_users_omap, omap_app.
      by rewrite <- app_assoc.
Qed.

Lemma ListUsers_fetched (k : keycloak) (users : list AccessUser) :
  ListUsers k = inr users -> users = omap newAccessUser (fetched (pages k)).
Proof.
  unfold ListUsers. destruct (token_err k); [discriminate|].
  intros H. by apply ListUsers_loop_fetched in H.
Qed.

(** ** sort.Slice on an integer key *)

Section SortFacts.
Context {A : Type} (key : A -> Z).

Lemma sift_Permutation (x : A) (r : list A) : sift (key_less key) x r ≡ₚ x :: r.
Proof.
  induction r as [|y r IH]; simpl; [done|].
  destruct ((key_less key) x y); [|done].
  rewrite IH. apply Permutation_swap.
Qed.

Lemma sift_sorted (x : A) (r : list A) :
  StronglySorted (flip (key_le key)) r -> StronglySorted (flip (key_le key)) (sift (key_less key) x r).
Proof.
  induction r as [|y r IH]; simpl; intros Hs.
  - repeat constructor.
  - apply StronglySorted_inv in Hs as [Hr Hy].
    destruct ((key_less key) x y) eqn:E; unfold key_less in E.
    + apply Z.ltb_lt in E. constructor; [auto|].
      rewrite sift_Permutation. constructor; [|done].
      unfold flip, key_le. lia.
    + apply Z.ltb_ge in E. constructor; [by constructor|].
      constructor; [done|].
      eapply Forall_impl; [exact Hy|]. unfold flip, key_le. intros z Hz. lia.
Qed.

Lemma fold_sift_Permutation (data acc : list A) :
  fold_left (fun revp x => sift (key_less key) x revp) data acc ≡ₚ data ++ acc.
Proof.
  revert acc. induction data as [|x data IH]; intros acc; simpl; [done|].
  rewrite IH, sift_Permutation. by rewrite Permutation_middle.
Qed.

Lemma fold_sift_sorted (data acc : list A) :
  StronglySorted (flip (key_le key)) acc ->
  StronglySorted (flip (key_le key)) (fold_left (fun revp x => sift (key_less key) x revp) data acc).
Proof.
  revert acc. induction data as [|x data IH]; intros acc Hs; simpl; [done|].
  by apply IH, sift_sorted.
Qed.

Lemma StronglySorted_rev_flip (l : list A) :
  StronglySorted (flip (key_le key)) l -> StronglySorted (key_le key) (rev l).
Proof.
  induction 1 as [|x l Hl IH Hx]; simpl; [constructor|].
  apply StronglySorted_app. split_and!; [|done|repeat constructor].
  intros x1 x2 Hx1 Hx2. apply list_elem_of_singleton in Hx2 as ->.
  rewrite Forall_forall in Hx. apply Hx.
  by apply list_elem_of_In, in_rev, list_elem_of_In.
Qed.

Lemma insertionSort_Permutation (data : list A) :
  insertionSort (key_less key) data ≡ₚ data.
Proof.
  unfold insertionSort. rewrite <- Permutation_rev, fold_sift_Permutation.
  by rewrite app_nil_r.
Qed.

Lemma insertionSort_sorted (data : list A) :
  StronglySorted (key_le key) (insertionSort (key_less key) data).
Proof. apply StronglySorted_rev_flip, fold_sift_sorted. constructor. Qed.

Lemma NoDup_key_inj (l : list A) (x y : A) :
  NoDup (map key l) -> x ∈ l -> y ∈ l -> key x = key y -> x = y.
Proof.
  induction l as [|z l IH]; simpl; intros Hnd Hx Hy Hk.
  - by apply not_elem_of_nil in Hx.
  - apply NoDup_cons in Hnd as [Hz Hnd].
    apply elem_of_cons in Hx as [->|Hx], Hy as [->|Hy]; auto.
    + exfalso. apply Hz. rewrite Hk. by apply (list_elem_of_fmap_2 key).
    + exfalso. apply Hz. rewrite <- Hk. by apply (list_elem_of_fmap_2 key).
Qed.

(** With pairwise different keys the order of the input does not show in
    the result. *)
Lemma insertionSort_Permutation_eq (l1 l2 : list A) :
  NoDup (map key l1) -> l1 ≡ₚ l2 ->
  insertionSort (key_less key) l1 = insertionSort (key_less key) l2.
Proof.
  intros Hnd Hp.
  apply (StronglySorted_unique_strong (key_le key));
    [|apply insertionSort_sorted..|by rewrite !insertionSort_Permutation].
  intros x1 x2 H1 H2 Hle1 Hle2.
  rewrite insertionSort_Permutation in H1.
  rewrite insertionSort_Permutation, <- Hp in H2.
  apply (NoDup_key_inj l1); [done..|]. unfold key_le in *. lia.
Qed.
End SortFacts.

Lemma sort_Slice_Permutation (users : list AccessUser) : sort_Slice users ≡ₚ users.
Proof. apply (insertionSort_Permutation FobID). Qed.

Lemma sort_Slice_sorted (users : list AccessUser) :
  StronglySorted (fun a b => FobID a <= FobID b) (sort_Slice users).
Proof. apply (insertionSort_sorted FobID). Qed.

(** Where no two entries share a [FobID], the fingerprint does not depend on
    the order in which the directory lists them. *)
Lemma calculateUsersHash_Permutation (l1 l2 : list AccessUser) :
  NoDup (map FobID l1) -> l1 ≡ₚ l2 ->
  calculateUsersHash (sort_Slice l1) = calculateUsersHash (sort_Slice l2).
Proof.
  intros Hnd Hp. f_equal. by apply (insertionSort_Permutation_eq FobID).
Qed.

(** ** The fingerprint is 64 hexadecimal digits *)

Lemma EncodeToString_length (bs : list Z) :
  String.length (EncodeToString bs) = (2 * length bs)%nat.
Proof. induction bs as [|b bs IH]; simpl; [done|]. rewrite IH. lia. Qed.

Lemma be_bytes_length (n : nat) (x : Z) : length (SHA256.be_bytes n x) = n.
Proof. unfold SHA256.be_bytes. by rewrite length_map, length_rev, length_seq. Qed.

Lemma Sum256_length (msg : list Z) : length (SHA256.Sum256 msg) = 32%nat.
Proof.
  unfold SHA256.Sum256, SHA256.digest_bytes.
  by rewrite !length_app, !be_bytes_length.
Qed.

Lemma calculateUsersHash_length (users : list AccessUser) :
  String.length (calculateUsersHash users) = 64%nat.
Proof.
  unfold calculateUsersHash. by rewrite EncodeToString_length, Sum256_length.
Qed.

Lemma calculateUsersHash_nonempty (users : list AccessUser) :
  calculateUsersHash users ≠ EmptyString.
Proof.
  intros H. pose proof (calculateUsersHash_length users) as Hl.
  rewrite H in Hl. discriminate.
Qed.

(** ** Notifying the watchers *)

Lemma nb_send_lookup (ch : chan) (h : list chan_st) (st : chan_st) :
  h !! ch = Some st -> closed st = false ->
  ∃ h', nb_send ch h = Some h' ∧
        ∀ i, h' !! i = if decide (i = ch) then Some (signal st) else h !! i.
Proof.
  intros Hst Hopen. unfold nb_send. rewrite Hst. simpl. rewrite Hopen.
  unfold signal. destruct (buffered st <? capacity st)%nat eqn:E.
  - eexists; split; [done|]. intros i. case_decide as Hi.
    + subst. apply list_lookup_insert_eq. by eapply lookup_lt_Some.
    + by apply list_lookup_insert_ne.
  - eexists; split; [done|]. intros i. case_decide; by subst.
Qed.

Lemma notify_lookup (chs : list chan) (h : list chan_st) :
  NoDup chs ->
  (∀ ch, ch ∈ chs -> ∃ st, h !! ch = Some st ∧ closed st = false) ->
  ∃ h', notify chs h = Some h' ∧
        ∀ i, h' !! i = if decide (i ∈ chs) then signal <$> h !! i else h !! i.
Proof.
  revert h. induction chs as [|ch chs IH]; intros h Hnd Hopen; cbn [notify].
  - exists h. split; [done|]. intros i.
    destruct (decide (i ∈ [])) as [Hi|]; [|done].
    by apply not_elem_of_nil in Hi.
  - apply NoDup_cons in Hnd as [Hch Hnd].
    destruct (Hopen ch) as (st & Hst & Hcl); [apply list_elem_of_here|].
    destruct (nb_send_lookup ch h st Hst Hcl) as (h1 & -> & Hh1). simpl.
    destruct (IH h1 Hnd) as (h' & -> & Hh').
    { intros c Hc. rewrite Hh1. case_decide as Hcc; [by subst|].
      by apply Hopen, list_elem_of_further. }
    exists h'. split; [done|]. intros i. rewrite Hh', Hh1.
    destruct (decide (i = ch)) as [->|Hne].
    + rewrite (decide_False (P := ch ∈ chs)) by done.
      rewrite (decide_True (P := ch ∈ ch :: chs)) by apply list_elem_of_here.
      by rewrite Hst.
    + destruct (decide (i ∈ chs)) as [Hi|Hi].
      * by rewrite (decide_True (P := i ∈ ch :: chs)) by (by apply list_elem_of_further).
      * rewrite (decide_False (P := i ∈ ch :: chs)); [done|].
        by intros [?|?]%elem_of_cons.
Qed.

(** ** Fill *)

Lemma Fill_error (k : keycloak) (err : error) (w : world) :
  ListUsers k = inl err -> Fill k w = Some (Some err, w).
Proof. intros H. unfold Fill. by rewrite H. Qed.

Lemma Fill_unchanged (k : keycloak) (users : list AccessUser) (w : world) :
  ListUsers k = inr users ->
  hash (the_cache w) = calculateUsersHash (sort_Slice users) ->
  Fill k w = Some (None, w).
Proof. intros H Heq. unfold Fill. rewrite H. simpl. by rewrite decide_True. Qed.

Lemma Fill_changed (k : keycloak) (users : list AccessUser) (w : world) :
  inv w ->
  ListUsers k = inr users ->
  hash (the_cache w) ≠ calculateUsersHash (sort_Slice users) ->
  ∃ h', Fill k w =
          Some (None, mkWorld (mkCache (Some (sort_Slice users))
                                 (calculateUsersHash (sort_Slice users))
                                 (watchers (the_cache w))) h' (waiting w)) ∧
        ∀ ch, h' !! ch = if decide (ch ∈ watchers (the_cache w))
                         then signal <$> chans w !! ch else chans w !! ch.
Proof.
  intros Hinv H Hne. unfold Fill. rewrite H. simpl. rewrite decide_False by done.
  destruct (notify_lookup (elements (watchers (the_cache w))) (chans w))
    as (h' & -> & Hh').
  - apply NoDup_elements.
  - intros ch Hch%elem_of_elements. apply (inv_watchers w Hinv) in Hch.
    destruct Hch as [Hp|Hp]; destruct (inv_chans w Hinv _ _ Hp) as (st & ? & ? & ?); eauto.
  - exists h'. split; [done|]. intros ch. rewrite Hh'.
    destruct (decide (ch ∈ watchers (the_cache w))) as [Hi|Hi].
    + rewrite decide_True; [done|]. by apply elem_of_elements.
    + rewrite decide_False; [done|]. by rewrite elem_of_elements.
Qed.

(** ** The invariant holds in every reachable world *)

Lemma signal_open (st : chan_st) :
  closed st = false ->
  closed (signal st) = false ∧ capacity (signal st) = capacity st.
Proof. intros H. unfold signal. by destruct (_ <? _)%nat. Qed.

Lemma signal_pending (st : chan_st) :
  capacity st = 1%nat -> (0 < buffered (signal st))%nat.
Proof.
  intros H. unfold signal. destruct (_ <? _)%nat eqn:E; simpl; [lia|].
  apply Nat.ltb_ge in E. lia.
Qed.

Lemma inv_init : inv init_world.
Proof.
  split; simpl; try done.
  intros ch. rewrite !lookup_empty. split; [by intros ?%not_elem_of_empty|].
  by intros [?|?].
Qed.

Lemma inv_Fill (k : keycloak) (w w' : world) (o : option error) :
  inv w -> Fill k w = Some (o, w') -> inv w'.
Proof.
  intros Hinv HF. destruct (ListUsers k) as [err|users] eqn:HL.
  { rewrite (Fill_error k err w HL) in HF. by simplify_eq. }
  destruct (decide (hash (the_cache w) = calculateUsersHash (sort_Slice users)))
    as [Heq|Hne].
  { rewrite (Fill_unchanged k users w HL Heq) in HF. by simplify_eq. }
  destruct (Fill_changed k users w Hinv HL Hne) as (h' & HF' & Hh').
  rewrite HF' in HF. simplify_eq. split; simpl.
  - done.
  - by intros us [= <-].
  - apply (inv_watchers w Hinv).
  - intros ch p Hp. rewrite Hh'.
    destruct (inv_chans w Hinv ch p Hp) as (st & Hst & Hcl & Hcap).
    rewrite Hst. destruct (signal_open st Hcl) as [Hs1 Hs2].
    case_decide; simpl; eauto. exists (signal st). by rewrite Hs1, Hs2.
Qed.

(** [Fill] never panics: every watcher's channel is open. *)
Lemma Fill_progress (k : keycloak) (w : world) :
  inv w -> ∃ o w', Fill k w = Some (o, w').
Proof.
  intros Hinv. destruct (ListUsers k) as [err|users] eqn:HL.
  { rewrite (Fill_error k err w HL). eauto. }
  destruct (decide (hash (the_cache w) = calculateUsersHash (sort_Slice users)))
    as [Heq|Hne].
  { rewrite (Fill_unchanged k users w HL Heq). eauto. }
  destruct (Fill_changed k users w Hinv HL Hne) as (h' & -> & _). eauto.
Qed.

Lemma inv_register (w : world) : inv w -> inv (snd (Wait_register w)).
Proof.
  intros [Hu Hh Hw Hc]. split; simpl; [done..| |].
  - intros ch. rewrite elem_of_union, elem_of_singleton, Hw.
    destruct (decide (ch = length (chans w))) as [->|Hne].
    + rewrite lookup_insert_eq. intuition congruence.
    + rewrite lookup_insert_ne by done. intuition congruence.
  - intros ch p. destruct (decide (ch = length (chans w))) as [->|Hne].
    + intros _. exists (mkChan 1 0 false). split; [|done].
      rewrite lookup_app_r by done. by rewrite Nat.sub_diag.
    + rewrite lookup_insert_ne by done. intros Hp.
      destruct (Hc ch p Hp) as (st & Hst & ?). exists st. split; [|done].
      by apply lookup_app_l_Some.
Qed.

Lemma inv_recv (ch : chan) (w w' : world) : inv w -> Wait_recv ch w = Some w' -> inv w'.
Proof.
  intros [Hu Hh Hw Hc]. unfold Wait_recv.
  destruct (waiting w !! ch) as [[]|] eqn:Hp; try discriminate.
  destruct (chans w !! ch) as [st|] eqn:Hst; try discriminate.
  destruct (Hc ch _ Hp) as (st' & Hst' & Hcl & Hcap). simplify_eq.
  rewrite Hcl. destruct (0 <? buffered st)%nat; [|discriminate].
  intros [= <-]. split; simpl; [done..| |].
  - intros c. rewrite Hw. destruct (decide (c = ch)) as [->|Hne].
    + rewrite lookup_insert_eq. intuition congruence.
    + by rewrite lookup_insert_ne.
  - intros c p. destruct (decide (c = ch)) as [->|Hne].
    + intros _. exists (mkChan (capacity st) (pred (buffered st)) false).
      split; [|done]. apply list_lookup_insert_eq. by eapply lookup_lt_Some.
    + rewrite lookup_insert_ne, list_lookup_insert_ne by done. apply Hc.
Qed.

Lemma inv_timer (ch : chan) (w w' : world) : inv w -> Wait_timer ch w = Some w' -> inv w'.
Proof.
  intros [Hu Hh Hw Hc]. unfold Wait_timer.
  destruct (waiting w !! ch) as [[]|] eqn:Hp; try discriminate.
  intros [= <-]. split; simpl; [done..| |].
  - intros c. rewrite Hw. destruct (decide (c = ch)) as [->|Hne].
    + rewrite lookup_insert_eq. intuition congruence.
    + by rewrite lookup_insert_ne.
  - intros c p. destruct (decide (c = ch)) as [->|Hne].
    + intros _. eauto.
    + rewrite lookup_insert_ne by done. apply Hc.
Qed.

Lemma inv_delete (ch : chan) (w w' : world) : inv w -> Wait_delete ch w = Some w' -> inv w'.
Proof.
  intros [Hu Hh Hw Hc]. unfold Wait_delete.
  destruct (waiting w !! ch) as [[]|] eqn:Hp; try discriminate.
  intros [= <-]. split; simpl; [done..| |].
  - intros c. rewrite elem_of_difference, elem_of_singleton, Hw.
    destruct (decide (c = ch)) as [->|Hne].
    + rewrite lookup_insert_eq. intuition congruence.
    + rewrite lookup_insert_ne by done. intuition congruence.
  - intros c p. destruct (decide (c = ch)) as [->|Hne].
    + intros _. eauto.
    + rewrite lookup_insert_ne by done. apply Hc.
Qed.

Lemma inv_close (ch : chan) (w w' : world) : inv w -> Wait_close ch w = Some w' -> inv w'.
Proof.
  intros [Hu Hh Hw Hc]. unfold Wait_close.
  destruct (waiting w !! ch) as [[]|] eqn:Hp; try discriminate.
  destruct (chans w !! ch) as [st|] eqn:Hst; try discriminate.
  destruct (closed st); [discriminate|].
  intros [= <-]. split; simpl; [done..| |].
  - intros c. rewrite Hw. destruct (decide (c = ch)) as [->|Hne].
    + rewrite lookup_delete_eq. intuition congruence.
    + by rewrite lookup_delete_ne.
  - intros c p. destruct (decide (c = ch)) as [->|Hne].
    + by rewrite lookup_delete_eq.
    + rewrite lookup_delete_ne, list_lookup_insert_ne by done. apply Hc.
Qed.

Lemma inv_step (l : label) (w w' : world) : inv w -> step l w = Some w' -> inv w'.
Proof.
  intros Hinv. destruct l as [k| | |ch|ch|ch|ch]; simpl.
  - destruct (Fill k w) as [[o w1]|] eqn:HF; [|discriminate].
    intros [= <-]. by eapply inv_Fill.
  - by intros [= <-].
  - intros [= <-]. by apply inv_register.
  - by apply inv_recv.
  - by apply inv_timer.
  - by apply inv_delete.
  - by apply inv_close.
Qed.

Lemma inv_run (ls : list label) (w w' : world) : inv w -> run ls w = Some w' -> inv w'.
Proof.
  revert w. induction ls as [|l ls IH]; intros w Hinv; simpl.
  - by intros [= <-].
  - destruct (step l w) as [w1|] eqn:Hs; [|discriminate]. simpl.
    apply IH. by eapply inv_step.
Qed.

Lemma reachable_inv (w : world) : reachable w -> inv w.
Proof. intros [ls Hls]. eapply inv_run; [apply inv_init|done]. Qed.

Lemma run_app (l1 l2 : list label) (w : world) :
  run (l1 ++ l2) w = w' ← run l1 w; run l2 w'.
Proof.
  revert w. induction l1 as [|l l1 IH]; intros w; simpl; [done|].
  destruct (step l w); simpl; [apply IH|done].
Qed.

Lemma reachable_run (ls : list label) (w w' : world) :
  reachable w -> run ls w = Some w' -> reachable w'.
Proof.
  intros [l0 H0] Hrun. exists (l0 ++ ls). rewrite run_app, H0. done.
Qed.

Lemma reachable_init : reachable init_world.
Proof. by exists []. Qed.

Lemma reachable_one_waiter : reachable world_one_waiter.
Proof. by exists [LRegister]. Qed.

(** ** C1: Fill replaces the state exactly when the fingerprint differs *)

(** C1.  Let [Fill] fetch the list [users] in a reachable world.  If the
    fingerprint of the sorted list equals the stored one, the world is left
    as it is: no field of the cache changes and no channel receives a value.
    If it differs - as it does whenever the stored fingerprint is the empty
    string - the sorted list and its fingerprint become the state in one
    step, the watcher set is kept, every registered watcher's channel holds a
    value afterwards, and no other channel is touched. *)
Theorem Fill_replaces_iff_fingerprint_differs
    (k : keycloak) (users : list AccessUser) (w : world) :
  reachable w ->
  ListUsers k = inr users ->
  (hash (the_cache w) = calculateUsersHash (sort_Slice users) ->
     Fill k w = Some (None, w)) ∧
  (hash (the_cache w) ≠ calculateUsersHash (sort_Slice users) ->
     ∃ w', Fill k w = Some (None, w') ∧
       the_cache w' = mkCache (Some (sort_Slice users))
                        (calculateUsersHash (sort_Slice users))
                        (watchers (the_cache w)) ∧
       waiting w' = waiting w ∧
       (∀ ch, ch ∈ watchers (the_cache w) ->
          ∃ st, chans w' !! ch = Some st ∧ (0 < buffered st)%nat ∧ closed st = false) ∧
       (∀ ch, ch ∉ watchers (the_cache w) -> chans w' !! ch = chans w !! ch)) ∧
  (hash (the_cache w) = EmptyString ->
     hash (the_cache w) ≠ calculateUsersHash (sort_Slice users)).
Proof.
  intros Hr HL. pose proof (reachable_inv w Hr) as Hinv. split_and!.
  - by apply Fill_unchanged.
  - intros Hne. destruct (Fill_changed k users w Hinv HL Hne) as (h' & HF & Hh').
    eexists. split; [exact HF|]. simpl. split_and!; [done..| |].
    + intros ch Hch. rewrite Hh', decide_True by done.
      apply (inv_watchers w Hinv) in Hch.
      assert (∃ p, waiting w !! ch = Some p) as [p Hp] by (destruct Hch; eauto).
      destruct (inv_chans w Hinv ch p Hp) as (st & -> & Hcl & Hcap).
      exists (signal st). simpl. split_and!; [done| |].
      * by apply signal_pending.
      * by apply signal_open.
    + intros ch Hch. by rewrite Hh', decide_False.
  - intros -> Heq. by eapply calculateUsersHash_nonempty.
Qed.

Lemma Fill_replaces_iff_fingerprint_differs_witness :
  ∃ w', Fill k_b world_one_waiter = Some (None, w') ∧
        state (the_cache w') = Some [entry_b] ∧
        ∃ st, chans w' !! 0%nat = Some st ∧ (0 < buffered st)%nat.
Proof.
  destruct (Fill_replaces_iff_fingerprint_differs k_b [entry_b] world_one_waiter)
    as (_ & Hchanged & Hfirst).
  - exists [LRegister]. reflexivity.
  - reflexivity.
  - destruct Hchanged as (w' & HF & Hc & _ & Hsig & _).
    + apply Hfirst. reflexivity.
    + exists w'. split; [exact HF|]. split; [by rewrite Hc|].
      destruct (Hsig 0%nat) as (st & Hst & Hb & _).
      * vm_compute. reflexivity.
      * by exists st.
Defined.

(** ** C6: a failed fetch leaves the world as it is *)

Lemma no_fetch_step (l : label) (w w' : world) :
  no_fetch l -> step l w = Some w' -> Load w' = Load w.
Proof.
  destruct l as [k| | |ch|ch|ch|ch]; simpl; intros Hn Hs.
  - destruct Hn as [err HL]. rewrite (Fill_error k err w HL) in Hs. by simplify_eq/=.
  - by simplify_eq.
  - by simplify_eq.
  - unfold Wait_recv in Hs. repeat case_match; by simplify_eq.
  - unfold Wait_timer in Hs. repeat case_match; by simplify_eq.
  - unfold Wait_delete in Hs. repeat case_match; by simplify_eq.
  - unfold Wait_close in Hs. repeat case_match; by simplify_eq.
Qed.

Lemma no_fetch_run (ls : list label) (w w' : world) :
  Forall no_fetch ls -> run ls w = Some w' -> Load w' = Load w.
Proof.
  intros Hall. revert w. induction Hall as [|l ls Hl _ IH]; intros w; simpl.
  - by intros [= <-].
  - destruct (step l w) as [w1|] eqn:Hs; [|discriminate]. simpl.
    intros Hrun. rewrite (IH _ Hrun). by eapply no_fetch_step.
Qed.

(** When [ListUsers] returns a Go error, [Fill] returns it and the world is
    the one it started from: the snapshot, the fingerprint, the watcher set
    and every channel are unchanged.  Hence after any further steps in none
    of which [ListUsers] returns a list, [Load] still returns what it
    returned before; from the initial world that is the nil snapshot and the
    empty fingerprint. *)
Theorem Fill_fetch_error_changes_nothing (k : keycloak) (err : error) (w : world) :
  ListUsers k = inl err ->
  Fill k w = Some (Some err, w) ∧
  (∀ ls w', Forall no_fetch ls -> run (LFill k :: ls) w = Some w' -> Load w' = Load w) ∧
  (∀ ls w', Forall no_fetch ls -> run (LFill k :: ls) init_world = Some w' ->
            Load w' = (None, EmptyString)).
Proof.
  intros HL. split_and!.
  - by apply Fill_error.
  - intros ls w' Hall Hrun. eapply no_fetch_run; [|exact Hrun].
    constructor; [by exists err|done].
  - intros ls w' Hall Hrun.
    rewrite (no_fetch_run (LFill k :: ls) init_world w'); [done| |done].
    constructor; [by exists err|done].
Qed.

Lemma Fill_fetch_error_changes_nothing_witness :
  Fill k_down world_one_waiter
  = Some (Some "getting token: connection refused"%string, world_one_waiter).
Proof.
  apply (Fill_fetch_error_changes_nothing k_down
           "getting token: connection refused" world_one_waiter).
  reflexivity.
Defined.

(** C6, at a failing input.  The cache holds the entry of member b and a
    reader waits.  The directory then answers the request for the members
    with status 503: the client reports no Go error and leaves the decoded
    list nil, so the paging loop stops and [ListUsers] returns the empty
    list without an error.  [Fill] installs it in place of the last good
    snapshot, with a new fingerprint, and signals the reader.  A status 429
    after a first page publishes that first page alone. *)
Theorem http_error_status_replaces_snapshot :
  ListUsers k_503 = inr [] ∧
  ListUsers k_429 = inr [entry_b; entry_q1] ∧
  ∃ w1 w2 st,
    run [LFill k_b; LRegister] init_world = Some w1 ∧
    Load w1 = (Some [entry_b], calculateUsersHash [entry_b]) ∧
    chans w1 !! 0%nat = Some (mkChan 1 0 false) ∧
    Fill k_503 w1 = Some (None, w2) ∧
    Load w2 = (Some [], calculateUsersHash []) ∧
    hash (the_cache w2) ≠ hash (the_cache w1) ∧
    chans w2 !! 0%nat = Some st ∧ buffered st = 1%nat.
Proof.
  split_and!; [reflexivity|reflexivity|].
  do 3 eexists. split_and!; try (vm_compute; reflexivity).
  vm_compute. discriminate.
Qed.

(** ** C9: the snapshot is nil exactly when the fingerprint is empty *)

(** C9.  In every reachable world the stored snapshot is nil exactly when
    the stored fingerprint is the empty string; a stored snapshot comes with
    its own fingerprint, which has 64 characters; and a call of [Fill] that
    returns no error leaves a snapshot that is not nil (possibly empty)
    together with such a fingerprint. *)
Theorem state_nil_iff_hash_empty (w : world) :
  reachable w ->
  (state (the_cache w) = None ↔ hash (the_cache w) = EmptyString) ∧
  (∀ us, state (the_cache w) = Some us ->
         hash (the_cache w) = calculateUsersHash us ∧
         String.length (hash (the_cache w)) = 64%nat) ∧
  (∀ k w', Fill k w = Some (None, w') ->
         ∃ us, state (the_cache w') = Some us ∧
               hash (the_cache w') = calculateUsersHash us ∧
               String.length (hash (the_cache w')) = 64%nat).
Proof.
  intros Hr. pose proof (reachable_inv w Hr) as Hinv.
  assert (Hgen : ∀ w0, inv w0 ->
            (state (the_cache w0) = None ↔ hash (the_cache w0) = EmptyString) ∧
            (∀ us, state (the_cache w0) = Some us ->
                   hash (the_cache w0) = calculateUsersHash us ∧
                   String.length (hash (the_cache w0)) = 64%nat)).
  { intros w0 H0. split.
    - split; [apply (inv_unwarmed w0 H0)|].
      intros He. destruct (state (the_cache w0)) as [us|] eqn:Hs; [|done].
      exfalso. apply (calculateUsersHash_nonempty us).
      by rewrite <- (inv_hash w0 H0 us).
    - intros us Hs. rewrite (inv_hash w0 H0 us Hs).
      split; [done|apply calculateUsersHash_length]. }
  destruct (Hgen w Hinv) as [Hiff Hsome]. split_and!; [done..|].
  intros k w' HF. pose proof (inv_Fill k w w' None Hinv HF) as Hinv'.
  destruct (Hgen w' Hinv') as [Hiff' Hsome'].
  destruct (state (the_cache w')) as [us|] eqn:Hs.
  { exists us. destruct (Hsome' us eq_refl). done. }
  exfalso. unfold Fill in HF.
  destruct (ListUsers k) as [err|users]; [discriminate|]. simpl in HF.
  case_decide as Hd.
  - simplify_eq. apply (calculateUsersHash_nonempty (sort_Slice users)).
    rewrite <- Hd. by apply Hiff'.
  - destruct (notify _ _); simplify_eq/=.
Qed.

Lemma state_nil_iff_hash_empty_witness :
  state (the_cache world_one_waiter) = None
  ↔ hash (the_cache world_one_waiter) = EmptyString.
Proof.
  apply (state_nil_iff_hash_empty world_one_waiter).
  exists [LRegister]. reflexivity.
Defined.

(** The fingerprint of the empty list is not the empty string: a cache that
    holds an empty list differs from one that was never filled. *)
Example calculateUsersHash_empty_list :
  calculateUsersHash []
  = "4f53cda18c2baa0c0354bb5f9a3ecbe5ed12ab4d8e11ba873c2f11161202b945"%string.
Proof. vm_compute. reflexivity. Qed.

(** ** C4 and C10: what a snapshot holds *)

(** C10.  Every entry built from a directory record has a [TTL] of
    86,400,000 milliseconds, whatever the record's attributes hold. *)
Theorem newAccessUser_TTL (kcuser : User) (a : AccessUser) :
  newAccessUser kcuser = Some a -> TTL a = 86400000.
Proof.
  intros H. apply newAccessUser_Some in H as (id & attr & _ & _ & -> & _). done.
Qed.

Lemma newAccessUser_TTL_witness :
  newAccessUser user_b = Some entry_b ∧ TTL entry_b = 86400000.
Proof.
  split; [reflexivity|]. apply (newAccessUser_TTL user_b entry_b). reflexivity.
Defined.

Lemma Fill_state (k : keycloak) (w w' : world) (o : option error) :
  Fill k w = Some (o, w') ->
  state (the_cache w') = state (the_cache w) ∨
  ∃ users, ListUsers k = inr users ∧ state (the_cache w') = Some (sort_Slice users).
Proof.
  unfold Fill. destruct (ListUsers k) as [err|users].
  { intros [= <- <-]. by left. }
  simpl. case_decide.
  { intros [= <- <-]. by left. }
  destruct (notify _ _); simpl; [|discriminate].
  intros [= <- <-]. right. by exists users.
Qed.

Lemma step_state (l : label) (w w' : world) :
  step l w = Some w' ->
  state (the_cache w') = state (the_cache w) ∨
  ∃ k users, ListUsers k = inr users ∧ state (the_cache w') = Some (sort_Slice users).
Proof.
  destruct l as [k| | |ch|ch|ch|ch]; simpl; intros Hs.
  - destruct (Fill k w) as [[o w1]|] eqn:HF; simplify_eq/=.
    destruct (Fill_state k w w' o HF) as [?|(users & ? & ?)]; eauto.
  - left. by simplify_eq.
  - left. by simplify_eq.
  - left. unfold Wait_recv in Hs. repeat case_match; by simplify_eq.
  - left. unfold Wait_timer in Hs. repeat case_match; by simplify_eq.
  - left. unfold Wait_delete in Hs. repeat case_match; by simplify_eq.
  - left. unfold Wait_close in Hs. repeat case_match; by simplify_eq.
Qed.

(** A published snapshot is the sorted result of one successful fetch. *)
Lemma reachable_state_fetched (w : world) (us : list AccessUser) :
  reachable w -> state (the_cache w) = Some us ->
  ∃ k users, ListUsers k = inr users ∧ us = sort_Slice users.
Proof.
  intros [ls Hls]. revert w us Hls.
  induction ls as [|l ls IH] using rev_ind; intros w us Hrun Hs.
  - simpl in Hrun. by simplify_eq.
  - rewrite run_app in Hrun.
    destruct (run ls init_world) as [w1|] eqn:H1; [|discriminate]. simpl in Hrun.
    destruct (step l w1) as [w2|] eqn:H2; simplify_eq/=.
    destruct (step_state l w1 w H2) as [Heq|(k & users & HL & Hst)].
    + apply (IH w1); [done|]. by rewrite <- Heq.
    + exists k, users. split; [done|]. rewrite Hs in Hst. by simplify_eq.
Qed.

Lemma step_state_label (l : label) (w w' : world) :
  step l w = Some w' ->
  state (the_cache w') = state (the_cache w) ∨
  ∃ k users, l = LFill k ∧ ListUsers k = inr users ∧
             state (the_cache w') = Some (sort_Slice users).
Proof.
  destruct l as [k| | |ch|ch|ch|ch]; intros Hs;
    try (left; by destruct (step_state _ w w' Hs) as [?|(? & ? & ? & ?)];
         [|simpl in Hs; unfold Wait_recv, Wait_timer, Wait_delete, Wait_close in Hs;
           repeat case_match; simplify_eq]).
  simpl in Hs. destruct (Fill k w) as [[o w1]|] eqn:HF; simplify_eq/=.
  destruct (Fill_state k w w' o HF) as [?|(users & ? & ?)]; [by left|].
  right. by exists k, users.
Qed.

(** The snapshot a run has published is the sorted result of a fetch made
    by one of its calls of [Fill]. *)
Lemma run_state_fetched (ls : list label) (w : world) (us : list AccessUser) :
  run ls init_world = Some w -> state (the_cache w) = Some us ->
  ∃ k users, LFill k ∈ ls ∧ ListUsers k = inr users ∧ us = sort_Slice users.
Proof.
  revert w us. induction ls as [|l ls IH] using rev_ind; intros w us Hrun Hs.
  - simpl in Hrun. by simplify_eq.
  - rewrite run_app in Hrun.
    destruct (run ls init_world) as [w1|] eqn:H1; [|discriminate]. simpl in Hrun.
    destruct (step l w1) as [w2|] eqn:H2; simplify_eq/=.
    destruct (step_state_label l w1 w H2) as [Heq|(k & users & -> & HL & Hst)].
    + destruct (IH w1 us eq_refl) as (k & users & Hin & HL & ->);
        [by rewrite <- Heq|].
      exists k, users. split; [|done]. apply elem_of_app. by left.
    + exists k, users. split_and!; [|done|].
      * apply elem_of_app. right. apply list_elem_of_here.
      * rewrite Hs in Hst. by simplify_eq.
Qed.

(** C4.  The snapshot that a run of the program has published comes from
    one of the calls of [Fill] of that run: it is the sorted list of the
    entries that [newAccessUser] builds from the records the directory gave
    that call, one entry per accepted record.  Each of its entries comes
    from a record with an ID, attributes, a fob or QR number that is not
    zero and a non-empty [buildingAccessApprover], and has itself a [FobID]
    or a [QRID] that is not zero.  A record that fails one of the conditions
    gives no entry, and the fetch succeeds all the same; and whatever list
    [ListUsers] returns is the list of the entries of the accepted records
    it was given, in their order. *)
Theorem snapshot_entries_from_accepted_records
    (ls : list label) (w : world) (us : list AccessUser) :
  run ls init_world = Some w ->
  state (the_cache w) = Some us ->
  (∃ k, LFill k ∈ ls ∧
        ListUsers k = inr (omap newAccessUser (fetched (pages k))) ∧
        us = sort_Slice (omap newAccessUser (fetched (pages k))) ∧
        us ≡ₚ omap newAccessUser (fetched (pages k)) ∧
        ∀ a, a ∈ us ->
          (FobID a ≠ 0 ∨ QRID a ≠ 0) ∧
          ∃ u, u ∈ fetched (pages k) ∧ accepted u ∧ newAccessUser u = Some a) ∧
  (∀ u, ¬ accepted u -> newAccessUser u = None) ∧
  (∀ k users, ListUsers k = inr users ->
     users = omap newAccessUser (fetched (pages k))).
Proof.
  intros Hrun Hs. split_and!; [|apply newAccessUser_rejected|apply ListUsers_fetched].
  destruct (run_state_fetched ls w us Hrun Hs) as (k & users & Hin & HL & ->).
  pose proof (ListUsers_fetched k users HL) as Hu.
  exists k. split_and!.
  - done.
  - by rewrite <- Hu.
  - by rewrite <- Hu.
  - by rewrite sort_Slice_Permutation, Hu.
  - intros a Ha. rewrite sort_Slice_Permutation, Hu in Ha.
    apply list_elem_of_omap in Ha as (u & Hu' & Hnew). split.
    + apply newAccessUser_Some in Hnew as (? & ? & _ & _ & _ & Hne & _). done.
    + exists u. split_and!; [done| |done]. apply newAccessUser_accepted. eauto.
Qed.

Lemma snapshot_entries_from_accepted_records_witness :
  ∃ w, run [LRegister; LFill k_b] init_world = Some w ∧
       state (the_cache w) = Some [entry_b] ∧
       [entry_b] = sort_Slice (omap newAccessUser (fetched (pages k_b))).
Proof.
  assert (Hrun : ∃ w, run [LRegister; LFill k_b] init_world = Some w ∧
                      state (the_cache w) = Some [entry_b]).
  { eexists. split; vm_compute; reflexivity. }
  destruct Hrun as (w & Hrun & Hs).
  exists w. split; [exact Hrun|]. split; [exact Hs|].
  destruct (snapshot_entries_from_accepted_records [LRegister; LFill k_b] w [entry_b]
              Hrun Hs) as [(k & Hin & _ & Hsort & _) _].
  apply elem_of_cons in Hin as [Hin|Hin]; [discriminate|].
  apply list_elem_of_singleton in Hin. injection Hin as <-. exact Hsort.
Defined.

(** ** C2: the fingerprint and the order of the fetched list *)

(** C2, at a failing input.  Two members with a QR code only both have
    [FobID] 0.  The directory lists them as q1, q2 and then as q2, q1: the
    same entries, yet [sort.Slice] keeps each order, the fingerprints differ,
    and the second [Fill] installs a new state and signals the waiting
    reader. *)
Theorem fingerprint_depends_on_fetch_order :
  ListUsers k_q12 = inr [entry_q1; entry_q2] ∧
  ListUsers k_q21 = inr [entry_q2; entry_q1] ∧
  [entry_q1; entry_q2] ≡ₚ [entry_q2; entry_q1] ∧
  calculateUsersHash (sort_Slice [entry_q1; entry_q2])
    ≠ calculateUsersHash (sort_Slice [entry_q2; entry_q1]) ∧
  ∃ w1 w2 st,
    run [LFill k_q12; LRegister] init_world = Some w1 ∧
    state (the_cache w1) = Some [entry_q1; entry_q2] ∧
    chans w1 !! 0%nat = Some (mkChan 1 0 false) ∧
    Fill k_q21 w1 = Some (None, w2) ∧
    state (the_cache w2) = Some [entry_q2; entry_q1] ∧
    hash (the_cache w2) ≠ hash (the_cache w1) ∧
    chans w2 !! 0%nat = Some st ∧ buffered st = 1%nat.
Proof.
  split_and!; [reflexivity|reflexivity|apply Permutation_swap| |].
  - vm_compute. discriminate.
  - do 3 eexists. split_and!; try (vm_compute; reflexivity).
    vm_compute. discriminate.
Qed.

(** ** C7: Wait deregisters what it registered *)

Lemma Fill_frame (k : keycloak) (w w' : world) (o : option error) :
  Fill k w = Some (o, w') ->
  watchers (the_cache w') = watchers (the_cache w) ∧ waiting w' = waiting w.
Proof.
  unfold Fill. destruct (ListUsers k) as [err|users].
  { by intros [= <- <-]. }
  simpl. case_decide.
  { by intros [= <- <-]. }
  destruct (notify _ _); simpl; [|discriminate]. by intros [= <- <-].
Qed.

(** The calls of [Fill] made while a reader waits all return, and leave the
    watcher set and the waiting readers as they were. *)
Lemma run_fills_frame (fills : list keycloak) (w : world) :
  inv w ->
  ∃ w', run (map LFill fills) w = Some w' ∧ inv w' ∧
        watchers (the_cache w') = watchers (the_cache w) ∧ waiting w' = waiting w.
Proof.
  revert w. induction fills as [|k fills IH]; intros w Hinv; simpl.
  - by exists w.
  - destruct (Fill_progress k w Hinv) as (o & w1 & HF). rewrite HF. simpl.
    destruct (Fill_frame k w w1 o HF) as [Hw1 Hp1].
    destruct (IH w1) as (w' & -> & Hinv' & Hw' & Hp'); [by eapply inv_Fill|].
    exists w'. by rewrite Hw', Hp', Hw1, Hp1.
Qed.

(** The channel a new call of [Wait] makes is not yet known to the cache. *)
Lemma fresh_chan (w : world) :
  inv w ->
  waiting w !! length (chans w) = None ∧ length (chans w) ∉ watchers (the_cache w).
Proof.
  intros Hinv.
  assert (Hnone : waiting w !! length (chans w) = None).
  { destruct (waiting w !! length (chans w)) as [p|] eqn:Hp; [|done].
    destruct (inv_chans w Hinv _ p Hp) as (st & Hst & _).
    apply lookup_lt_Some in Hst. lia. }
  split; [done|]. rewrite (inv_watchers w Hinv), Hnone. by intros [|].
Qed.

Lemma select_shape (ch : chan) (how : wake) (w w' : world) :
  match how with
  | Notified => Wait_recv ch w
  | TimedOut => Wait_timer ch w
  end = Some w' ->
  the_cache w' = the_cache w ∧ waiting w' = <[ch := AtDelete]> (waiting w).
Proof.
  destruct how; unfold Wait_recv, Wait_timer; intros H;
    repeat case_match; by simplify_eq.
Qed.

Lemma inv_select (ch : chan) (how : wake) (w w' : world) :
  inv w ->
  match how with
  | Notified => Wait_recv ch w
  | TimedOut => Wait_timer ch w
  end = Some w' -> inv w'.
Proof. destruct how; [apply inv_recv|apply inv_timer]. Qed.

Lemma Wait_frame (period : Z) (fills : list keycloak) (how : wake) (w w' : world) :
  inv w ->
  Wait period fills how w = Some w' ->
  inv w' ∧ watchers (the_cache w') = watchers (the_cache w) ∧ waiting w' = waiting w.
Proof.
  intros Hinv. destruct (fresh_chan w Hinv) as [Hnone Hnotin].
  unfold Wait. cbn [Wait_register].
  match goal with |- context [run _ ?w1] => set (w1' := w1) end.
  assert (Hinv1 : inv w1') by apply (inv_register w Hinv).
  destruct (run_fills_frame fills w1' Hinv1) as (w2 & -> & Hinv2 & Hw2 & Hp2).
  simpl.
  destruct (match how with Notified => _ | TimedOut => _ end) as [w3|] eqn:Hsel;
    [|discriminate]. simpl.
  destruct (select_shape _ _ _ _ Hsel) as [Hc3 Hp3].
  pose proof (inv_select _ _ _ _ Hinv2 Hsel) as Hinv3.
  destruct (Wait_delete (length (chans w)) w3) as [w4|] eqn:Hdel; [|discriminate].
  simpl. intros Hclose.
  pose proof (inv_delete _ _ _ Hinv3 Hdel) as Hinv4.
  pose proof (inv_close _ _ _ Hinv4 Hclose) as Hinv'.
  split; [done|].
  unfold Wait_delete in Hdel. rewrite Hp3, lookup_insert_eq in Hdel.
  simplify_eq. unfold Wait_close in Hclose. simpl in Hclose.
  rewrite lookup_insert_eq in Hclose.
  destruct (chans w3 !! length (chans w)) as [st|]; [|discriminate].
  destruct (closed st); [discriminate|]. simplify_eq. simpl.
  rewrite Hc3, Hw2, Hp2. simpl. split.
  - apply set_eq. intros c.
    rewrite elem_of_difference, elem_of_union, elem_of_singleton.
    split; [by intros [[?|?] ?]|]. intros Hc. split; [by right|]. by intros ->.
  - rewrite !delete_insert_eq. by apply delete_id.
Qed.

Lemma Wait_timer_returns (period : Z) (fills : list keycloak) (w : world) :
  inv w -> ∃ w', Wait period fills TimedOut w = Some w'.
Proof.
  intros Hinv. unfold Wait. cbn [Wait_register].
  match goal with |- context [run _ ?w1] => set (w1' := w1) end.
  assert (Hinv1 : inv w1') by apply (inv_register w Hinv).
  destruct (run_fills_frame fills w1' Hinv1) as (w2 & -> & Hinv2 & Hw2 & Hp2).
  simpl.
  assert (Hp : waiting w2 !! length (chans w) = Some AtSelect).
  { rewrite Hp2. subst w1'. simpl. apply lookup_insert_eq. }
  destruct (Wait_timer (length (chans w)) w2) as [w3|] eqn:Ht.
  2:{ unfold Wait_timer in Ht. by rewrite Hp in Ht. }
  simpl. pose proof (inv_timer _ _ _ Hinv2 Ht) as Hinv3.
  unfold Wait_timer in Ht. rewrite Hp in Ht. simplify_eq.
  unfold Wait_delete. simpl. rewrite lookup_insert_eq. simpl.
  unfold Wait_close. simpl. rewrite lookup_insert_eq.
  destruct (inv_chans _ Hinv2 _ _ Hp) as (st & -> & -> & _). eauto.
Qed.

Lemma Wait_cycles_frame (cycles : list (Z * list keycloak * wake)) (w w' : world) :
  inv w ->
  Wait_cycles cycles w = Some w' ->
  watchers (the_cache w') = watchers (the_cache w).
Proof.
  revert w. induction cycles as [|[[period fills] how] cycles IH]; intros w Hinv; simpl.
  - by intros [= <-].
  - destruct (Wait period fills how w) as [w1|] eqn:HW; [|discriminate]. simpl.
    destruct (Wait_frame _ _ _ _ _ Hinv HW) as (Hinv1 & Hw1 & _).
    intros H. rewrite (IH w1 Hinv1 H). done.
Qed.

(** C7.  In a reachable world a call of [Wait] that times out returns, and a
    call that returns - woken by a notification or by the timer, whatever
    calls of [Fill] ran in between - leaves the watcher set as it was before
    the call, the channel it had made being no longer in it.  Hence the
    watcher set after any number of calls one after the other is the one
    before the first.  And however the steps of several readers and of the
    loop interleave, every watcher is the channel of a call of [Wait] that
    has not yet run its [delete]. *)
Theorem Wait_leaves_watchers_unchanged
    (period : Z) (fills : list keycloak) (w : world) :
  reachable w ->
  (∃ w', Wait period fills TimedOut w = Some w') ∧
  (∀ how w', Wait period fills how w = Some w' ->
     watchers (the_cache w') = watchers (the_cache w) ∧
     (length (chans w) ∉ watchers (the_cache w')) ∧
     waiting w' = waiting w) ∧
  (∀ cycles w', Wait_cycles cycles w = Some w' ->
     watchers (the_cache w') = watchers (the_cache w)) ∧
  (∀ ls w' ch, run ls w = Some w' -> ch ∈ watchers (the_cache w') ->
     waiting w' !! ch = Some AtSelect ∨ waiting w' !! ch = Some AtDelete).
Proof.
  intros Hr. pose proof (reachable_inv w Hr) as Hinv. split_and!.
  - by apply Wait_timer_returns.
  - intros how w' HW. destruct (Wait_frame _ _ _ _ _ Hinv HW) as (_ & Hw & Hp).
    split_and!; [done| |done]. rewrite Hw. by apply fresh_chan.
  - intros cycles w'. by apply Wait_cycles_frame.
  - intros ls w' ch Hrun. by apply (inv_watchers w' (inv_run ls w w' Hinv Hrun)).
Qed.

Lemma Wait_leaves_watchers_unchanged_witness :
  ∃ w', Wait (5 * Second) [k_b] Notified world_one_waiter = Some w' ∧
        watchers (the_cache w') = watchers (the_cache world_one_waiter).
Proof.
  assert (HW : ∃ w', Wait (5 * Second) [k_b] Notified world_one_waiter = Some w').
  { eexists. vm_compute. reflexivity. }
  destruct HW as [w' HW]. exists w'. split; [exact HW|].
  destruct (Wait_leaves_watchers_unchanged (5 * Second) [k_b] world_one_waiter)
    as (_ & Hone & _ & _).
  - exists [LRegister]. reflexivity.
  - by destruct (Hone Notified w' HW).
Defined.

(** Under any interleaving, the watchers are the channels of the calls of
    [Wait] that have not yet passed their [delete]: once every call has
    returned, no watcher is left. *)
Lemma no_watcher_without_waiter (w : world) :
  reachable w -> waiting w = ∅ -> watchers (the_cache w) = ∅.
Proof.
  intros Hr He. apply set_eq. intros ch.
  rewrite (inv_watchers w (reachable_inv w Hr)), He, lookup_empty.
  split; [by intros [|]|by intros ?%not_elem_of_empty].
Qed.

(** ** C8: a reader can tell a cache never filled from an empty list *)

Lemma warmed_stays (ls : list label) (w w' : world) :
  run ls w = Some w' -> state (the_cache w) ≠ None -> state (the_cache w') ≠ None.
Proof.
  revert w. induction ls as [|l ls IH]; intros w; simpl.
  - by intros [= <-].
  - destruct (step l w) as [w1|] eqn:Hs; [|discriminate]. simpl.
    intros Hrun Hne. apply (IH w1 Hrun).
    destruct (step_state l w w1 Hs) as [->|(k & users & _ & ->)]; done.
Qed.

(** From the start, the snapshot is nil exactly as long as no fetch of
    [Fill] has succeeded. *)
Lemma unwarmed_iff_no_fetch (ls : list label) (w : world) :
  run ls init_world = Some w ->
  state (the_cache w) = None ↔ Forall no_fetch ls.
Proof.
  assert (Hgen : ∀ ls w0 w, inv w0 -> state (the_cache w0) = None ->
            run ls w0 = Some w -> state (the_cache w) = None ↔ Forall no_fetch ls).
  { clear. intros ls. induction ls as [|l ls IH]; intros w0 w Hinv H0; simpl.
    - intros [= <-]. split; [constructor|done].
    - destruct (step l w0) as [w1|] eqn:Hs; [|discriminate]. simpl. intros Hrun.
      pose proof (inv_step l w0 w1 Hinv Hs) as Hinv1.
      assert (Hdec : no_fetch l ∨ ∃ k users, l = LFill k ∧ ListUsers k = inr users).
      { destruct l as [k| | |ch|ch|ch|ch]; simpl; auto.
        destruct (ListUsers k) as [err|users] eqn:HL; eauto. }
      destruct Hdec as [Hn|(k & users & -> & HL)].
      + pose proof (no_fetch_step l w0 w1 Hn Hs) as HLoad.
        assert (H1 : state (the_cache w1) = None).
        { unfold Load in HLoad. injection HLoad as -> _. exact H0. }
        rewrite (IH w1 w Hinv1 H1 Hrun). split; [by constructor|].
        by intros [_ ?]%Forall_cons.
      + assert (H1 : state (the_cache w1) ≠ None).
        { simpl in Hs. destruct (Fill k w0) as [[o w1']|] eqn:HF; simplify_eq/=.
          unfold Fill in HF. rewrite HL in HF. simpl in HF.
          case_decide as Hd.
          - exfalso. apply (calculateUsersHash_nonempty (sort_Slice users)).
            rewrite <- Hd. by apply (inv_unwarmed w0 Hinv).
          - destruct (notify _ _); by simplify_eq/=. }
        split.
        * intros Hnone. exfalso. by apply (warmed_stays ls w1 w Hrun H1).
        * intros [[err Herr] _]%Forall_cons. rewrite HL in Herr. discriminate. }
  intros Hrun. by apply (Hgen ls init_world w inv_init).
Qed.

Lemma get_fobs_inv (ParseDuration : string -> error + Z) (v : version)
    (r : request) (fills : list keycloak) (how : wake) (w w' : world)
    (resp : response) :
  inv w ->
  get_fobs ParseDuration v r fills how w = Some (w', resp) ->
  ¬ rejected ParseDuration r ->
  inv w' ∧
  resp = after_Load v (state (the_cache w')) (hash (the_cache w')) r.
Proof.
  intros Hinv Hget Hrej. unfold get_fobs, handle_wait in Hget.
  case_decide as Hq.
  - simpl in Hget. by simplify_eq.
  - destruct (ParseDuration (query_wait r)) as [err|d] eqn:HP.
    { exfalso. apply Hrej. split; eauto. }
    destruct (Wait d fills how w) as [w1|] eqn:HW; [|discriminate].
    destruct (Wait_frame d fills how w w1 Hinv HW) as (Hinv1 & _).
    simpl in Hget. by simplify_eq.
Qed.

(** C8.  Take a GET /v1/fobs served in a reachable world, its [wait]
    parameter absent or well formed.  If the snapshot is nil when the
    handler loads it, the first version answers 412 with no header and no
    body, and the revised version answers the JSON text [null] with an empty
    ETag while its /healthz answers 500.  If the snapshot is a list, even an
    empty one, the answer is never 412 and never [null]: it is 304 or the
    list with its fingerprint, and the revised /healthz answers 204.  From
    the start, the revised /healthz answers 500 exactly as long as no fetch
    of [Fill] has succeeded. *)
Theorem unwarmed_cache_is_told_apart
    (ParseDuration : string -> error + Z) (v : version) (r : request)
    (fills : list keycloak) (how : wake) (w w' : world) (resp : response) :
  reachable w ->
  get_fobs ParseDuration v r fills how w = Some (w', resp) ->
  ¬ rejected ParseDuration r ->
  (state (the_cache w') = None ->
     get_healthz V2 w' = just_status 500 ∧
     resp = match v with V1 => just_status 412 | V2 => unwarmed_answer end) ∧
  (∀ us, state (the_cache w') = Some us ->
     get_healthz V2 w' = just_status 204 ∧
     status resp ≠ 412 ∧ body resp ≠ body unwarmed_answer ∧
     (resp = just_status 304 ∨ resp = list_answer us)) ∧
  (∀ ls w0, run ls init_world = Some w0 ->
     get_healthz V2 w0 = just_status 500 ↔ Forall no_fetch ls).
Proof.
  intros Hr Hget Hrej.
  destruct (get_fobs_inv ParseDuration v r fills how w w' resp
              (reachable_inv w Hr) Hget Hrej) as [Hinv' ->].
  split_and!.
  - intros Hs. unfold get_healthz, Load. simpl. rewrite Hs. split; [done|].
    rewrite (inv_unwarmed w' Hinv' Hs). unfold after_Load, answer.
    rewrite decide_False by (by intros [? _]). by destruct v.
  - intros us Hs. unfold get_healthz, Load. simpl. rewrite Hs.
    rewrite (inv_hash w' Hinv' us Hs). split; [done|].
    assert (Hv : after_Load v (Some us) (calculateUsersHash us) r
                 = answer (Some us) (calculateUsersHash us) r) by (by destruct v).
    rewrite Hv. unfold answer. case_decide; split_and!; auto; done.
  - intros ls w0 Hrun. rewrite <- (unwarmed_iff_no_fetch ls w0 Hrun).
    unfold get_healthz, Load. simpl.
    destruct (state (the_cache w0)); split; done.
Qed.

Lemma unwarmed_cache_is_told_apart_witness :
  get_fobs (fun _ => inr (5 * Second)) V1 (mkRequest "5s" EmptyString) [] TimedOut
    init_world
  = Some (mkWorld newCache [mkChan 1 0 true] ∅, just_status 412) ∧
  get_healthz V2 (mkWorld newCache [mkChan 1 0 true] ∅) = just_status 500.
Proof.
  pose (PD := fun _ : string => @inr error Z (5 * Second)).
  pose (r := mkRequest "5s" EmptyString).
  pose (w' := mkWorld newCache [mkChan 1 0 true] ∅).
  assert (Hget : get_fobs PD V1 r [] TimedOut init_world = Some (w', just_status 412))
    by reflexivity.
  split; [exact Hget|].
  destruct (unwarmed_cache_is_told_apart PD V1 r [] TimedOut init_world
              w' (just_status 412)) as (Hnil & _ & _).
  - exists []. reflexivity.
  - exact Hget.
  - intros [_ [err Herr]]. discriminate.
  - destruct Hnil as [Hh _]; [reflexivity|exact Hh].
Defined.

(** ** C3: the delays of the Keycloak loop *)

Lemma wrap64_small (x : Z) : - 2 ^ 63 <= x < 2 ^ 63 -> wrap64 x = x.
Proof. intros H. unfold wrap64. rewrite Z.mod_small; lia. Qed.

Lemma backoff_unset (resync : Z) :
  backoff resync 0 = Z.min resync (375 * Millisecond).
Proof.
  unfold backoff. simpl.
  change (wrap64 _) with 375000000. change (375 * Millisecond) with 375000000.
  rewrite Z.gtb_ltb. destruct (Z.ltb_spec resync 375000000); lia.
Qed.

Lemma backoff_next (resync d : Z) :
  0 < d <= resync -> resync <= 2 ^ 62 ->
  backoff resync d = Z.min resync (d + d / 2).
Proof.
  intros Hd Hr. unfold backoff.
  destruct (Z.eqb_spec d 0) as [->|_]; [lia|].
  rewrite Z.quot_div_nonneg by lia.
  assert (0 <= d / 2) by (apply Z.div_pos; lia).
  assert (2 * (d / 2) <= d) by (apply Z.mul_div_le; lia).
  rewrite wrap64_small by lia.
  rewrite Z.gtb_ltb. destruct (Z.ltb_spec resync (d + d / 2)); lia.
Qed.

(** In both versions, [n] failures in a row make the loop sleep the [n]
    delays that [backoff] yields one from the other. *)
Lemma drun_failures (v : version) (resync : Z) (e : error) (n : nat) (d : driver) :
  pc d = match v with V1 => AtFill | V2 => AtRange end ->
  ∃ d' evs, drun v resync (failures v e n) d = Some (d', evs) ∧
            sleeps evs = delays resync n (lastRetry d).
Proof.
  revert d. induction n as [|n IH]; intros d Hpc; [by exists d, []|].
  destruct v; cbn [failures drun dstep].
  - rewrite Hpc. cbn [loop_body mbind option_bind].
    edestruct (IH (mkDriver AtFill (backoff resync (lastRetry d)) (refresh d)))
      as (d' & evs & -> & Hs); [done|].
    simpl. do 2 eexists. split; [done|]. simpl. by rewrite Hs.
  - destruct d as [p l r]. simpl in Hpc. subst p. cbn [pc lastRetry refresh].
    assert (Hr : ∃ m, (if (r <? 1)%nat then S r else r) = S m).
    { destruct r; simpl; eauto. }
    destruct Hr as [m ->]. cbn [mbind option_bind pc lastRetry refresh loop_body].
    edestruct (IH (mkDriver AtRange (backoff resync l) m))
      as (d' & evs & -> & Hs); [done|].
    simpl. do 2 eexists. split; [done|]. simpl. by rewrite Hs.
Qed.

Example delays_default :
  delays Hour 8 0
  = [375000000; 562500000; 843750000; 1265625000; 1898437500; 2847656250;
     4271484375; 6407226562].
Proof. reflexivity. Qed.

Example delays_reach_resync : last (delays Hour 24 0) = Some Hour.
Proof. reflexivity. Qed.

(** C3, as stated, fails: the first delay is not 250ms but 375ms, and a
    delay is not always one and a half times the one before. *)
Lemma first_delay_is_not_250ms :
  (∃ d evs,
     drun V2 Hour (failures V2 "unreachable" 3) (init_driver V2) = Some (d, evs) ∧
     sleeps evs = [375 * Millisecond; 562500000; 843750000] ∧
     sleeps evs ≠ [250 * Millisecond; 375 * Millisecond; 562500000]) ∧
  backoff Hour 4271484375 = 6407226562 ∧
  2 * 6407226562 ≠ 3 * 4271484375.
Proof.
  split_and!; [|reflexivity|discriminate].
  do 2 eexists. split_and!; [reflexivity|reflexivity|discriminate].
Qed.

(** C3, amended.  For a resync interval of at most 2^62 ns, the delays the
    loop sleeps on failures in a row from the unset state are those of
    [delays]: the first is 375ms, the 250ms floor grown once (or the resync
    interval, if that is less); each next one is the previous one plus its
    half, in whole nanoseconds, or the resync interval if that is less.  In
    the revised loop a successful [Fill] sets [lastRetry] to zero, so that
    the next failure sleeps the first delay again. *)
Theorem backoff_delays (resync : Z) (e : error) (n : nat) :
  0 < resync <= 2 ^ 62 ->
  (∃ d' evs, drun V2 resync (failures V2 e n) (init_driver V2) = Some (d', evs) ∧
             sleeps evs = delays resync n 0) ∧
  (∃ d' evs, drun V1 resync (DTrigger :: DRecv :: failures V1 e n) (init_driver V1)
             = Some (d', evs) ∧
             sleeps evs = delays resync n 0) ∧
  backoff resync 0 = Z.min resync (375 * Millisecond) ∧
  (∀ d, 0 < d <= resync -> backoff resync d = Z.min resync (d + d / 2)) ∧
  (∀ d, pc d = AtFill ->
     ∃ d', drun V2 resync [DFill None; DTrigger; DRecv; DFill (Some e)] d
           = Some (d', [EvFill None; EvFill (Some e);
                        EvSleep (Z.min resync (375 * Millisecond))])).
Proof.
  intros [Hlo Hhi]. split_and!.
  - by apply (drun_failures V2).
  - cbn [drun dstep init_driver pc refresh lastRetry Nat.ltb Nat.leb mbind option_bind].
    destruct (drun_failures V1 resync e n (mkDriver AtFill 0 0)) as (d' & evs & -> & Hs);
      [done|].
    by exists d', evs.
  - apply backoff_unset.
  - intros d Hd. by apply backoff_next.
  - intros [p l r] Hp. simpl in Hp. subst p.
    cbn [drun dstep loop_body pc refresh lastRetry mbind option_bind].
    assert (Hr : ∃ m, (if (r <? 1)%nat then S r else r) = S m).
    { destruct r; simpl; eauto. }
    destruct Hr as [m ->]. cbn [mbind option_bind pc lastRetry refresh app].
    rewrite backoff_unset. eauto.
Qed.

Lemma backoff_delays_witness :
  backoff Hour 0 = 375 * Millisecond ∧ backoff Hour (375 * Millisecond) = 562500000.
Proof.
  destruct (backoff_delays Hour "unreachable" 2) as (_ & _ & H0 & Hnext & _).
  - vm_compute. split; [reflexivity|discriminate].
  - split; [exact H0|]. rewrite Hnext; [reflexivity|].
    vm_compute. split; [reflexivity|discriminate].
Defined.

(** ** C5: what the loop does after a call of Fill *)

(** C5, at a failing input.  After a failed [Fill] the revised loop has
    slept its backoff delay and waits for a trigger, no further pass being
    possible before one arrives: the retry that the delay prepares, and that
    the first version makes, is missing.  After a successful [Fill] the
    first version sleeps and is about to call [Fill] again. *)
Lemma no_retry_without_trigger :
  drun V2 Hour [DRecv; DFill (Some "unreachable"%string)] (init_driver V2)
  = Some (mkDriver AtRange (375 * Millisecond) 0,
          [EvFill (Some "unreachable"%string); EvSleep (375 * Millisecond)]) ∧
  dstep V2 Hour DRecv (mkDriver AtRange (375 * Millisecond) 0) = None ∧
  (∀ err, dstep V2 Hour (DFill err) (mkDriver AtRange (375 * Millisecond) 0) = None) ∧
  drun V1 Hour [DTrigger; DRecv; DFill None] (init_driver V1)
  = Some (mkDriver AtFill (375 * Millisecond) 0,
          [EvFill None; EvSleep (375 * Millisecond)]).
Proof. split_and!; reflexivity. Qed.

(** The passes of the loop.  In the revised loop, after a [Fill] that succeeds
    [lastRetry] is zero and the loop waits for the next trigger, with no
    sleep and no further call of [Fill]; after a [Fill] that fails the loop
    sleeps the backoff delay and then waits for the next trigger as well:
    at that point a pass is possible only once a value is in [refresh].
    In the first version a [Fill] that fails is followed by the sleep and by
    another call of [Fill], no trigger being awaited. *)
Theorem loop_after_Fill (resync : Z) (d : driver) (e : error) :
  pc d = AtFill ->
  dstep V2 resync (DFill None) d
    = Some (mkDriver AtRange 0 (refresh d), [EvFill None]) ∧
  dstep V2 resync (DFill (Some e)) d
    = Some (mkDriver AtRange (backoff resync (lastRetry d)) (refresh d),
            [EvFill (Some e); EvSleep (backoff resync (lastRetry d))]) ∧
  (∀ d', pc d' = AtRange ->
     (∀ err, dstep V2 resync (DFill err) d' = None) ∧
     (refresh d' = 0%nat -> dstep V2 resync DRecv d' = None) ∧
     (∀ m, refresh d' = S m ->
        dstep V2 resync DRecv d' = Some (mkDriver AtFill (lastRetry d') m, []))) ∧
  dstep V1 resync (DFill (Some e)) d
    = Some (mkDriver AtFill (backoff resync (lastRetry d)) (refresh d),
            [EvFill (Some e); EvSleep (backoff resync (lastRetry d))]).
Proof.
  intros Hpc. unfold dstep. rewrite Hpc. split_and!; try reflexivity.
  intros d' Hpc'. rewrite Hpc'. split_and!; [done| |].
  - by intros ->.
  - by intros m ->.
Qed.

Lemma loop_after_Fill_witness :
  dstep V2 Hour (DFill None) (mkDriver AtFill (375 * Millisecond) 1)
  = Some (mkDriver AtRange 0 1, [EvFill None]).
Proof.
  apply (loop_after_Fill Hour (mkDriver AtFill (375 * Millisecond) 1) "unreachable").
  reflexivity.
Defined.

(** * Further properties of the code *)

(** ** The Keycloak loop and its triggers *)

Lemma sleeps_app (a b : list event) : sleeps (a ++ b) = sleeps a ++ sleeps b.
Proof.
  induction a as [|ev a IH]; simpl; [done|]. destruct ev; simpl; by rewrite IH.
Qed.

Lemma backoff_bounds (resync d : Z) :
  0 < resync <= 2 ^ 62 -> 0 <= d <= resync -> 0 < backoff resync d <= resync.
Proof.
  intros Hr Hd. destruct (Z.eq_dec d 0) as [->|Hne].
  - rewrite backoff_unset. change (375 * Millisecond) with 375000000. lia.
  - rewrite backoff_next by lia.
    assert (0 <= d / 2) by (apply Z.div_pos; lia). lia.
Qed.

Lemma dstep_bounds (v : version) (resync : Z) (l : dlabel) (d d' : driver)
    (evs : list event) :
  0 < resync <= 2 ^ 62 ->
  (refresh d <= 1)%nat -> 0 <= lastRetry d <= resync ->
  dstep v resync l d = Some (d', evs) ->
  (refresh d' <= 1)%nat ∧ 0 <= lastRetry d' <= resync ∧
  Forall (fun s => 0 < s <= resync) (sleeps evs).
Proof.
  intros Hr Hc Hl. destruct l as [| |err]; simpl.
  - intros [= <- <-]. simpl. split_and!; [|lia..|constructor].
    destruct (refresh d) as [|[|n]]; simpl; lia.
  - destruct (pc d), (refresh d) as [|n] eqn:E; try discriminate.
    intros [= <- <-]. simpl. split_and!; [lia..|constructor].
  - destruct (pc d); [discriminate|]. intros [= Hb]. revert Hb.
    unfold loop_body. destruct v, err as [e|]; intros [= <- <-]; simpl.
    + pose proof (backoff_bounds resync (lastRetry d) Hr Hl).
      split_and!; [done|lia..|by constructor].
    + pose proof (backoff_bounds resync 0 Hr ltac:(lia)).
      split_and!; [done|lia..|by constructor].
    + pose proof (backoff_bounds resync (lastRetry d) Hr Hl).
      split_and!; [done|lia..|by constructor].
    + split_and!; [done|lia..|constructor].
Qed.

Lemma drun_bounds (v : version) (resync : Z) (ls : list dlabel) (d d' : driver)
    (evs : list event) :
  0 < resync <= 2 ^ 62 ->
  (refresh d <= 1)%nat -> 0 <= lastRetry d <= resync ->
  drun v resync ls d = Some (d', evs) ->
  (refresh d' <= 1)%nat ∧ 0 <= lastRetry d' <= resync ∧
  Forall (fun s => 0 < s <= resync) (sleeps evs).
Proof.
  intros Hr. revert d evs. induction ls as [|l ls IH]; intros d evs Hc Hl; simpl.
  - intros [= <- <-]. split_and!; [done|lia..|constructor].
  - destruct (dstep v resync l d) as [[d1 ev1]|] eqn:Hs; [|discriminate]. simpl.
    destruct (drun v resync ls d1) as [[d2 ev2]|] eqn:Hrun; [|discriminate]. simpl.
    intros [= <- <-].
    destruct (dstep_bounds v resync l d d1 ev1 Hr Hc Hl Hs) as (Hc1 & Hl1 & Hs1).
    destruct (IH d1 ev2 Hc1 Hl1 Hrun) as (Hc2 & Hl2 & Hs2).
    split; [done|split; [done|]]. rewrite sleeps_app. by apply Forall_app.
Qed.

(** X1.  In both versions of the loop, with a resync interval between 1ns
    and 2^62 ns, [lastRetry] always lies between zero and the resync
    interval, and every time slept is positive and at most the resync
    interval. *)
Theorem loop_sleeps_within_resync (v : version) (resync : Z) (ls : list dlabel)
    (d : driver) (evs : list event) :
  0 < resync <= 2 ^ 62 ->
  drun v resync ls (init_driver v) = Some (d, evs) ->
  0 <= lastRetry d <= resync ∧ Forall (fun s => 0 < s <= resync) (sleeps evs).
Proof.
  intros Hr Hrun.
  destruct (drun_bounds v resync ls (init_driver v) d evs Hr) as (_ & Hl & Hs);
    [destruct v; simpl; lia|simpl; lia|done|done].
Qed.

Lemma loop_sleeps_within_resync_witness :
  Forall (fun s => 0 < s <= Hour)
    [375 * Millisecond; 562500000].
Proof.
  destruct (loop_sleeps_within_resync V2 Hour (failures V2 "unreachable" 2)
              (mkDriver AtRange 562500000 0)
              [EvFill (Some "unreachable"%string); EvSleep (375 * Millisecond);
               EvFill (Some "unreachable"%string); EvSleep 562500000])
    as [_ Hs].
  - vm_compute. split; [reflexivity|discriminate].
  - reflexivity.
  - exact Hs.
Defined.

Lemma count_cons (f : dlabel -> bool) (l : dlabel) (ls : list dlabel) :
  count f (l :: ls) = ((if f l then 1 else 0) + count f ls)%nat.
Proof.
  unfold count. rewrite filter_cons. destruct (f l) eqn:E.
  - by rewrite decide_True.
  - by rewrite decide_False.
Qed.

Lemma drun_cons (v : version) (resync : Z) (l : dlabel) (ls : list dlabel)
    (d : driver) :
  drun v resync (l :: ls) d
  = '(d1, ev1) ← dstep v resync l d;
    '(d2, ev2) ← drun v resync ls d1;
    Some (d2, ev1 ++ ev2).
Proof. done. Qed.

Lemma drun_counts (v : version) (resync : Z) (ls : list dlabel) (d d' : driver)
    (evs : list event) :
  (refresh d <= 1)%nat ->
  drun v resync ls d = Some (d', evs) ->
  (refresh d' <= 1)%nat ∧
  (count is_recv ls + refresh d' <= count is_trigger ls + refresh d)%nat ∧
  (v = V2 ->
   (count is_fill ls + (if pc d' is AtFill then 1 else 0)
    = count is_recv ls + (if pc d is AtFill then 1 else 0))%nat).
Proof.
  revert d evs. induction ls as [|l ls IH]; intros d evs Hc; simpl.
  - intros [= <- <-]. unfold count. simpl. split_and!; [done|lia|done].
  - destruct (dstep v resync l d) as [[d1 ev1]|] eqn:Hs; [|discriminate]. simpl.
    destruct (drun v resync ls d1) as [[d2 ev2]|] eqn:Hrun; [|discriminate]. simpl.
    intros [= <- <-]. rewrite !count_cons.
    destruct l as [| |err]; simpl in Hs |- *.
    + injection Hs as <- <-.
      assert (Hr1 : (if (refresh d <? 1)%nat then S (refresh d) else refresh d) = 1%nat).
      { destruct (refresh d) as [|[|n]]; simpl; lia. }
      rewrite Hr1 in Hrun.
      apply IH in Hrun as (Hc2 & Hn & Hf); [|simpl; lia]. simpl in *.
      split_and!; [done|lia|done].
    + destruct (pc d) eqn:Hpc, (refresh d) as [|n] eqn:E; try discriminate.
      injection Hs as <- <-.
      apply IH in Hrun as (Hc2 & Hn & Hf); [|simpl; lia]. simpl in *.
      split_and!; [done|lia|]. intros Hv. specialize (Hf Hv). lia.
    + destruct (pc d) eqn:Hpc; [discriminate|]. injection Hs as Hb.
      assert (Hd1 : refresh d1 = refresh d ∧ (v = V2 -> pc d1 = AtRange)).
      { revert Hb. unfold loop_body. destruct v, err; intros [= <- <-]; done. }
      destruct Hd1 as [Hr1 Hp1].
      apply IH in Hrun as (Hc2 & Hn & Hf); [|lia].
      split_and!; [done|lia|]. intros Hv. specialize (Hf Hv).
      rewrite (Hp1 Hv) in Hf. lia.
Qed.

(** X2.  The webhook handler and the ticker never block and never queue
    more than one request: a trigger is always accepted, at most one value
    waits in [refresh], and any number of triggers in a row leaves exactly
    one.  In every run of the revised loop the calls of [Fill] are at most
    the values received from [refresh], which are at most the triggers plus
    the one value put there at the start. *)
Theorem triggers_coalesce (v : version) (resync : Z) (ls : list dlabel)
    (d : driver) (evs : list event) :
  drun v resync ls (init_driver v) = Some (d, evs) ->
  (refresh d <= 1)%nat ∧
  (∃ d1, dstep v resync DTrigger d = Some (d1, []) ∧ refresh d1 = 1%nat ∧
         pc d1 = pc d ∧ lastRetry d1 = lastRetry d) ∧
  (∀ n, drun v resync (repeat DTrigger (S n)) d
        = Some (mkDriver (pc d) (lastRetry d) 1, [])) ∧
  (v = V2 ->
   (count is_fill ls <= count is_recv ls)%nat ∧
   (count is_recv ls <= count is_trigger ls + 1)%nat).
Proof.
  intros Hrun.
  destruct (drun_counts v resync ls (init_driver v) d evs) as (Hc & Hn & Hf);
    [destruct v; simpl; lia|done|].
  assert (Hone : ∀ d0, (refresh d0 <= 1)%nat ->
            dstep v resync DTrigger d0
            = Some (mkDriver (pc d0) (lastRetry d0) 1, [])).
  { intros d0 H0. simpl. by destruct (refresh d0) as [|[|n]]; simpl; [..|lia]. }
  split_and!.
  - done.
  - eexists. split; [by apply Hone|done].
  - intros n. clear Hrun Hn Hf. revert d Hc. induction n as [|n IH]; intros d Hc.
    + simpl. by destruct (refresh d) as [|[|m]]; simpl; [..|lia].
    + change (repeat DTrigger (S (S n))) with (DTrigger :: repeat DTrigger (S n)).
      rewrite drun_cons, (Hone d Hc). cbn [mbind option_bind].
      rewrite (IH (mkDriver (pc d) (lastRetry d) 1)) by (simpl; lia). done.
  - intros ->. specialize (Hf eq_refl). simpl in Hn, Hf. split; [|lia].
    destruct (pc d); lia.
Qed.

Lemma triggers_coalesce_witness :
  drun V2 Hour (repeat DTrigger 3) (mkDriver AtFill 0 0)
  = Some (mkDriver AtFill 0 1, []).
Proof.
  destruct (triggers_coalesce V2 Hour [DRecv] (mkDriver AtFill 0 0) [])
    as (_ & _ & Hrep & _); [reflexivity|].
  exact (Hrep 2%nat).
Defined.

(** X3.  In the first version of the loop the [goto] closes the cycle: once
    the loop has received a value from [refresh] it never receives another;
    each later pass calls [Fill] and sleeps, whether [Fill] failed or not. *)
Theorem first_loop_never_returns_to_refresh (resync : Z) (ls : list dlabel)
    (d d' : driver) (evs : list event) :
  pc d = AtFill ->
  drun V1 resync ls d = Some (d', evs) ->
  pc d' = AtFill ∧ count is_recv ls = 0%nat ∧
  length (sleeps evs) = count is_fill ls.
Proof.
  revert d evs. induction ls as [|l ls IH]; intros d evs Hpc; simpl.
  - by intros [= <- <-].
  - destruct (dstep V1 resync l d) as [[d1 ev1]|] eqn:Hs; [|discriminate]. simpl.
    destruct (drun V1 resync ls d1) as [[d2 ev2]|] eqn:Hrun; [|discriminate]. simpl.
    intros [= <- <-]. rewrite !count_cons, sleeps_app, length_app.
    destruct l as [| |err]; simpl in Hs.
    + injection Hs as <- <-.
      apply IH in Hrun as (? & ? & ?); [|done]. simpl. by split_and!.
    + by rewrite Hpc in Hs.
    + rewrite Hpc in Hs. injection Hs as <- <-.
      apply IH in Hrun as (? & ? & ?); [|done]. simpl. split_and!; [done..|lia].
Qed.

Lemma first_loop_never_returns_to_refresh_witness :
  ∃ d evs, drun V1 Hour [DFill None; DTrigger; DFill None] (mkDriver AtFill 0 0)
           = Some (d, evs) ∧ pc d = AtFill ∧ length (sleeps evs) = 2%nat.
Proof.
  assert (H : ∃ d evs, drun V1 Hour [DFill None; DTrigger; DFill None]
                         (mkDriver AtFill 0 0) = Some (d, evs)).
  { do 2 eexists. reflexivity. }
  destruct H as (d & evs & H). exists d, evs. split; [exact H|].
  destruct (first_loop_never_returns_to_refresh Hour
              [DFill None; DTrigger; DFill None] (mkDriver AtFill 0 0) d evs
              eq_refl H) as (Hp & _ & Hl).
  split; [exact Hp|exact Hl].
Defined.

(** ** The cache under any interleaving *)

Lemma step_bounded (l : label) (w w' : world) :
  inv w ->
  (∀ ch st, chans w !! ch = Some st -> capacity st = 1%nat ∧ (buffered st <= 1)%nat) ->
  step l w = Some w' ->
  ∀ ch st, chans w' !! ch = Some st -> capacity st = 1%nat ∧ (buffered st <= 1)%nat.
Proof.
  intros Hinv Hb. destruct l as [k| | |c|c|c|c]; simpl.
  - destruct (Fill k w) as [[o w1]|] eqn:HF; [|discriminate]. intros [= <-].
    destruct (ListUsers k) as [err|users] eqn:HL.
    { rewrite (Fill_error k err w HL) in HF. by simplify_eq. }
    destruct (decide (hash (the_cache w) = calculateUsersHash (sort_Slice users)))
      as [Heq|Hne].
    { rewrite (Fill_unchanged k users w HL Heq) in HF. by simplify_eq. }
    destruct (Fill_changed k users w Hinv HL Hne) as (h' & HF' & Hh').
    rewrite HF' in HF. simplify_eq. simpl. intros ch st. rewrite Hh'.
    case_decide; [|apply Hb].
    destruct (chans w !! ch) as [st0|] eqn:E; [|discriminate]. simpl.
    intros [= <-]. destruct (Hb ch st0 E) as [Hcap Hbuf].
    unfold signal. destruct (_ <? _)%nat eqn:Hlt; simpl; [|done].
    apply Nat.ltb_lt in Hlt. lia.
  - by intros [= <-].
  - intros [= <-]. simpl. intros ch st [?|[_ Hnew]]%lookup_app_Some; [by eapply Hb|].
    destruct (ch - length (chans w))%nat; simplify_eq/=. split; [done|lia].
  - unfold Wait_recv. repeat case_match; try discriminate; intros [= <-]; simpl; [|done].
    intros ch st [(-> & <- & _)|[_ ?]]%list_lookup_insert_Some; [|by eapply Hb].
    simpl. match goal with H : chans w !! _ = Some _ |- _ =>
      destruct (Hb _ _ H) as [? ?] end. split; [done|lia].
  - unfold Wait_timer. repeat case_match; try discriminate. by intros [= <-].
  - unfold Wait_delete. repeat case_match; try discriminate. by intros [= <-].
  - unfold Wait_close. repeat case_match; try discriminate; intros [= <-]; simpl.
    intros ch st [(-> & <- & _)|[_ ?]]%list_lookup_insert_Some; [|by eapply Hb].
    simpl. match goal with H : chans w !! _ = Some _ |- _ =>
      destruct (Hb _ _ H) as [? ?] end. done.
Qed.

Lemma run_bounded (ls : list label) (w w' : world) :
  inv w ->
  (∀ ch st, chans w !! ch = Some st -> capacity st = 1%nat ∧ (buffered st <= 1)%nat) ->
  run ls w = Some w' ->
  ∀ ch st, chans w' !! ch = Some st -> capacity st = 1%nat ∧ (buffered st <= 1)%nat.
Proof.
  revert w. induction ls as [|l ls IH]; intros w Hinv Hb; simpl.
  - by intros [= <-].
  - destruct (step l w) as [w1|] eqn:Hs; [|discriminate]. simpl.
    apply IH; [by eapply inv_step|by eapply step_bounded].
Qed.

(** X4.  However readers and loop interleave, a channel made by [Wait] has
    capacity one and never holds more than one value: notifications of
    several changes that a reader has not yet seen collapse into one. *)
Theorem one_pending_notification (w : world) (ch : nat) (st : chan_st) :
  reachable w ->
  chans w !! ch = Some st ->
  capacity st = 1%nat ∧ (buffered st <= 1)%nat.
Proof.
  intros [ls Hls]. apply (run_bounded ls init_world w inv_init); [|done].
  intros c s H. apply lookup_lt_Some in H. simpl in H. lia.
Qed.

Lemma one_pending_notification_witness :
  (buffered (mkChan 1 1 false) <= 1)%nat.
Proof.
  destruct (one_pending_notification
              (mkWorld (mkCache (Some [entry_q2; entry_q1])
                          (calculateUsersHash [entry_q2; entry_q1]) {[0%nat]})
                 [mkChan 1 1 false] {[0%nat := AtSelect]})
              0%nat (mkChan 1 1 false)) as [_ H].
  - exists [LRegister; LFill k_q12; LFill k_q21]. vm_compute. reflexivity.
  - reflexivity.
  - exact H.
Defined.

(** X5.  In a reachable world the part of [Fill] that follows the return
    of [ListUsers] does not panic: every watcher's channel exists and is
    open, so the notification loop never sends on a closed channel, and
    [Fill] returns the error of [ListUsers] or none.  A reader about to
    close its channel finds it open. *)
Theorem no_panic (w : world) :
  reachable w ->
  (∃ h', notify (elements (watchers (the_cache w))) (chans w) = Some h') ∧
  (∀ k users, ListUsers k = inr users -> ∃ w', Fill k w = Some (None, w')) ∧
  (∀ k err, ListUsers k = inl err -> Fill k w = Some (Some err, w)) ∧
  (∀ ch, ch ∈ watchers (the_cache w) ->
         ∃ st, chans w !! ch = Some st ∧ closed st = false) ∧
  (∀ ch, waiting w !! ch = Some AtClose -> ∃ w', Wait_close ch w = Some w').
Proof.
  intros Hr. pose proof (reachable_inv w Hr) as Hinv.
  assert (Hopen : ∀ ch, ch ∈ watchers (the_cache w) ->
            ∃ st, chans w !! ch = Some st ∧ closed st = false).
  { intros ch Hch. apply (inv_watchers w Hinv) in Hch.
    destruct Hch as [Hp|Hp];
      destruct (inv_chans w Hinv ch _ Hp) as (st & ? & ? & _); eauto. }
  split_and!.
  - destruct (notify_lookup (elements (watchers (the_cache w))) (chans w))
      as (h' & Hn & _); [apply NoDup_elements| |by exists h'].
    intros ch Hch%elem_of_elements. by apply Hopen.
  - intros k users HL. destruct (Fill_progress k w Hinv) as (o & w' & HF).
    exists w'. revert HF. unfold Fill. rewrite HL. simpl.
    case_decide; [by intros [= <- <-]|].
    destruct (notify _ _); simpl; [by intros [= <- <-]|discriminate].
  - intros k err HL. by apply Fill_error.
  - done.
  - intros ch Hp. destruct (inv_chans w Hinv ch _ Hp) as (st & Hst & Hcl & _).
    unfold Wait_close. rewrite Hp, Hst, Hcl. eauto.
Qed.

Lemma no_panic_witness :
  ∃ w', Fill k_b world_one_waiter = Some (None, w').
Proof.
  destruct (no_panic world_one_waiter) as (_ & HF & _).
  - exists [LRegister]. reflexivity.
  - apply (HF k_b [entry_b]). reflexivity.
Defined.

Lemma Fill_hash (k : keycloak) (users : list AccessUser) (w w' : world)
    (o : option error) :
  ListUsers k = inr users ->
  Fill k w = Some (o, w') ->
  o = None ∧ hash (the_cache w') = calculateUsersHash (sort_Slice users).
Proof.
  intros HL. unfold Fill. rewrite HL. simpl. case_decide as Hd.
  - by intros [= <- <-].
  - destruct (notify _ _); simpl; [|discriminate]. by intros [= <- <-].
Qed.

(** X6.  [Fill] is idempotent: once a call has fetched a list, a later call
    that fetches the same list - whatever readers did in between - returns
    no error, changes nothing and signals no one. *)
Theorem Fill_same_answer_is_noop (k : keycloak) (users : list AccessUser)
    (w w1 w2 : world) (o : option error) (ls : list label) :
  ListUsers k = inr users ->
  Fill k w = Some (o, w1) ->
  Forall no_fetch ls ->
  run ls w1 = Some w2 ->
  Fill k w2 = Some (None, w2).
Proof.
  intros HL HF Hall Hrun. destruct (Fill_hash k users w w1 o HL HF) as [_ Hh].
  apply (Fill_unchanged k users); [done|].
  pose proof (no_fetch_run ls w1 w2 Hall Hrun) as HLoad.
  unfold Load in HLoad. injection HLoad as _ ->. done.
Qed.

Lemma Fill_same_answer_is_noop_witness :
  ∃ w2, run [LRegister] (mkWorld (mkCache (Some [entry_b])
                                   (calculateUsersHash [entry_b]) ∅) [] ∅)
        = Some w2 ∧ Fill k_b w2 = Some (None, w2).
Proof.
  eexists. split; [reflexivity|].
  apply (Fill_same_answer_is_noop k_b [entry_b] init_world
           (mkWorld (mkCache (Some [entry_b]) (calculateUsersHash [entry_b]) ∅) [] ∅)
           _ None [LRegister]).
  - reflexivity.
  - vm_compute. reflexivity.
  - repeat constructor.
  - reflexivity.
Defined.

(** X7.  When no two entries of the fetched list share a [FobID], a later
    call of [Fill] that fetches the same entries in any other order changes
    nothing and signals no one. *)
Theorem Fill_permuted_answer_is_noop (k1 k2 : keycloak) (l1 l2 : list AccessUser)
    (w w1 w2 : world) (o : option error) (ls : list label) :
  ListUsers k1 = inr l1 ->
  ListUsers k2 = inr l2 ->
  l1 ≡ₚ l2 ->
  NoDup (map FobID l1) ->
  Fill k1 w = Some (o, w1) ->
  Forall no_fetch ls ->
  run ls w1 = Some w2 ->
  Fill k2 w2 = Some (None, w2).
Proof.
  intros HL1 HL2 Hp Hnd HF Hall Hrun.
  destruct (Fill_hash k1 l1 w w1 o HL1 HF) as [_ Hh].
  apply (Fill_unchanged k2 l2); [done|].
  pose proof (no_fetch_run ls w1 w2 Hall Hrun) as HLoad.
  unfold Load in HLoad. injection HLoad as _ ->.
  rewrite Hh. by apply calculateUsersHash_Permutation.
Qed.

Lemma Fill_permuted_answer_is_noop_witness :
  ∃ w1, Fill (mkKeycloak None [Page [user_b; user_q1]]) init_world = Some (None, w1) ∧
        Fill (mkKeycloak None [Page [user_q1; user_b]]) w1 = Some (None, w1).
Proof.
  eexists. split; [vm_compute; reflexivity|].
  eapply (Fill_permuted_answer_is_noop
            (mkKeycloak None [Page [user_b; user_q1]])
            (mkKeycloak None [Page [user_q1; user_b]])
            [entry_b; entry_q1] [entry_q1; entry_b] init_world _ _ None []).
  - reflexivity.
  - reflexivity.
  - apply Permutation_swap.
  - simpl. apply NoDup_cons. split; [|apply NoDup_singleton].
    intros H%list_elem_of_singleton. discriminate.
  - vm_compute. reflexivity.
  - constructor.
  - reflexivity.
Defined.

(** X8.  A published snapshot is sorted by [FobID], ascending. *)
Theorem snapshot_sorted_by_FobID (w : world) (us : list AccessUser) :
  reachable w ->
  state (the_cache w) = Some us ->
  StronglySorted (fun a b => FobID a <= FobID b) us.
Proof.
  intros Hr Hs.
  destruct (reachable_state_fetched w us Hr Hs) as (k & users & _ & ->).
  apply sort_Slice_sorted.
Qed.

Lemma snapshot_sorted_by_FobID_witness :
  StronglySorted (fun a b => FobID a <= FobID b) [entry_q1; entry_b].
Proof.
  apply (snapshot_sorted_by_FobID
           (mkWorld (mkCache (Some [entry_q1; entry_b])
                       (calculateUsersHash [entry_q1; entry_b]) ∅) [] ∅)).
  - exists [LFill (mkKeycloak None [Page [user_b; user_q1]])]. vm_compute. reflexivity.
  - reflexivity.
Defined.

(** X9.  Once the cache holds a snapshot it holds one for ever: no step
    sets it back to nil, so the revised /healthz, once it has answered 204,
    never answers 500 again. *)
Theorem readiness_never_regresses (ls : list label) (w w' : world) :
  run ls w = Some w' ->
  get_healthz V2 w = just_status 204 ->
  state (the_cache w') ≠ None ∧ get_healthz V2 w' = just_status 204.
Proof.
  intros Hrun Hh.
  assert (Hs : state (the_cache w) ≠ None).
  { unfold get_healthz, Load in Hh. simpl in Hh.
    destruct (state (the_cache w)); [done|discriminate]. }
  pose proof (warmed_stays ls w w' Hrun Hs) as Hs'. split; [done|].
  unfold get_healthz, Load. simpl. by destruct (state (the_cache w')).
Qed.

Lemma readiness_never_regresses_witness :
  get_healthz V2 (mkWorld (mkCache (Some [entry_b])
                             (calculateUsersHash [entry_b]) ∅) [] ∅)
  = just_status 204.
Proof.
  apply (readiness_never_regresses [LFill k_down]
           (mkWorld (mkCache (Some [entry_b]) (calculateUsersHash [entry_b]) ∅) [] ∅)
           (mkWorld (mkCache (Some [entry_b]) (calculateUsersHash [entry_b]) ∅) [] ∅)).
  - reflexivity.
  - reflexivity.
Defined.

(** ** Who wakes a waiting reader *)

Lemma run_fills_chan (fills : list keycloak) (w w2 : world) (ch : nat)
    (st : chan_st) :
  inv w ->
  waiting w !! ch = Some AtSelect ->
  chans w !! ch = Some st ->
  run (map LFill fills) w = Some w2 ->
  ∃ st2, chans w2 !! ch = Some st2 ∧
         if any_change fills (hash (the_cache w))
         then (0 < buffered st2)%nat else st2 = st.
Proof.
  revert w st. induction fills as [|k fills IH]; intros w st Hinv Hp Hst; simpl.
  { intros [= <-]. by exists st. }
  destruct (Fill k w) as [[o w1]|] eqn:HF; [|discriminate]. simpl. intros Hrun.
  destruct (ListUsers k) as [err|users] eqn:HL.
  { rewrite (Fill_error k err w HL) in HF. simplify_eq. by apply IH. }
  destruct (decide (hash (the_cache w) = calculateUsersHash (sort_Slice users)))
    as [Heq|Hne].
  { rewrite (Fill_unchanged k users w HL Heq) in HF. simplify_eq. by apply IH. }
  destruct (Fill_changed k users w Hinv HL Hne) as (h' & HF' & Hh').
  pose proof (inv_Fill k w w1 o Hinv HF) as Hinv1.
  destruct (Fill_frame k w w1 o HF) as [_ Hp1].
  rewrite HF' in HF. simplify_eq.
  assert (Hch : ch ∈ watchers (the_cache w)) by (apply (inv_watchers w Hinv); auto).
  destruct (inv_chans w Hinv ch _ Hp) as (st' & Hst' & _ & Hcap). simplify_eq.
  edestruct (IH _ (signal st) Hinv1) as (st2 & Hst2 & Hcase); [done| |exact Hrun|].
  { simpl. by rewrite Hh', decide_True, Hst. }
  exists st2. split; [done|].
  destruct (any_change fills _); [done|]. subst st2. by apply signal_pending.
Qed.

(** X10.  A reader waiting in [Wait] can leave through the notification
    case exactly when one of the calls of [Fill] made during its wait
    changed the fingerprint: a change always reaches the readers registered
    before it, and a reader is never notified without one. *)
Theorem notified_iff_changed (period : Z) (fills : list keycloak) (w : world) :
  reachable w ->
  is_Some (Wait period fills Notified w)
  ↔ any_change fills (hash (the_cache w)) = true.
Proof.
  intros Hr. pose proof (reachable_inv w Hr) as Hinv.
  unfold Wait. cbn [Wait_register].
  match goal with |- context [run _ ?w1] => set (w1' := w1) end.
  assert (Hinv1 : inv w1') by apply (inv_register w Hinv).
  destruct (run_fills_frame fills w1' Hinv1) as (w2 & Hrun & Hinv2 & Hw2 & Hp2).
  rewrite Hrun. simpl.
  assert (Hp : waiting w2 !! length (chans w) = Some AtSelect).
  { rewrite Hp2. subst w1'. simpl. apply lookup_insert_eq. }
  destruct (run_fills_chan fills w1' w2 (length (chans w)) (mkChan 1 0 false) Hinv1)
    as (st2 & Hst2 & Hcase); [by rewrite <- Hp2| |done|].
  { subst w1'. simpl. rewrite lookup_app_r by done. by rewrite Nat.sub_diag. }
  change (hash (the_cache w1')) with (hash (the_cache w)) in Hcase.
  destruct (inv_chans w2 Hinv2 _ _ Hp) as (st2' & Hst2' & Hcl & _). simplify_eq.
  unfold Wait_recv. rewrite Hp, Hst2, Hcl.
  destruct (any_change fills (hash (the_cache w))).
  - split; [done|]. intros _.
    assert (Hlt : (0 <? buffered st2)%nat = true) by (apply Nat.ltb_lt; lia).
    rewrite Hlt. simpl. unfold Wait_delete. simpl. rewrite lookup_insert_eq. simpl.
    unfold Wait_close. simpl. rewrite lookup_insert_eq.
    rewrite list_lookup_insert_eq by (by eapply lookup_lt_Some). simpl. eauto.
  - subst st2. simpl. split; [by intros [? ?]|done].
Qed.

Lemma notified_iff_changed_witness :
  is_Some (Wait (5 * Second) [k_down; k_b] Notified init_world).
Proof.
  apply (notified_iff_changed (5 * Second) [k_down; k_b] init_world).
  - exists []. reflexivity.
  - vm_compute. reflexivity.
Defined.

(** ** Conditional requests *)

(** X11.  GET /v1/fobs on a cache that holds the list [us], the [wait]
    parameter absent or well formed: a request whose If-None-Match is the
    fingerprint of [us] is answered 304 with no header and no body, any
    other request gets the list with that fingerprint as its ETag.  So a
    reader that sends back the ETag it was given gets 304 as long as the
    list has not changed. *)
Theorem conditional_get (ParseDuration : string -> error + Z) (v : version)
    (r : request) (fills : list keycloak) (how : wake) (w w' : world)
    (resp : response) (us : list AccessUser) :
  reachable w ->
  get_fobs ParseDuration v r fills how w = Some (w', resp) ->
  ¬ rejected ParseDuration r ->
  state (the_cache w') = Some us ->
  (If_None_Match r = calculateUsersHash us -> resp = just_status 304) ∧
  (If_None_Match r ≠ calculateUsersHash us ->
     resp = list_answer us ∧
     ∀ fills' how' w'' resp',
       get_fobs ParseDuration v
         (mkRequest EmptyString (calculateUsersHash us)) fills' how' w'
       = Some (w'', resp') -> resp' = just_status 304).
Proof.
  intros Hr Hget Hrej Hs.
  destruct (get_fobs_inv ParseDuration v r fills how w w' resp
              (reachable_inv w Hr) Hget Hrej) as [Hinv' ->].
  rewrite Hs, (inv_hash w' Hinv' us Hs).
  assert (Hv : ∀ r0, after_Load v (Some us) (calculateUsersHash us) r0
                     = answer (Some us) (calculateUsersHash us) r0)
    by (by destruct v).
  rewrite Hv. unfold answer. split.
  - intros Heq. rewrite decide_True; [done|].
    split; [apply calculateUsersHash_nonempty|done].
  - intros Hne. rewrite decide_False by (by intros [_ ?]). split; [done|].
    intros fills' how' w'' resp'. unfold get_fobs, handle_wait. simpl.
    unfold Load. rewrite Hs.
    rewrite (inv_hash w' Hinv' us Hs), Hv. unfold answer.
    rewrite decide_True; [by intros [= <- <-]|].
    split; [apply calculateUsersHash_nonempty|done].
Qed.

Lemma conditional_get_witness :
  ∃ resp,
    get_fobs (fun _ => inl "unused"%string) V2
      (mkRequest EmptyString (calculateUsersHash [entry_b])) [] TimedOut
      (mkWorld (mkCache (Some [entry_b]) (calculateUsersHash [entry_b]) ∅) [] ∅)
    = Some (mkWorld (mkCache (Some [entry_b]) (calculateUsersHash [entry_b]) ∅) [] ∅,
            resp) ∧
    resp = just_status 304.
Proof.
  pose (PD := fun _ : string => @inl error Z "unused"%string).
  pose (w := mkWorld (mkCache (Some [entry_b]) (calculateUsersHash [entry_b]) ∅) [] ∅).
  pose (r := mkRequest EmptyString (calculateUsersHash [entry_b])).
  assert (Hget : ∃ resp, get_fobs PD V2 r [] TimedOut w = Some (w, resp)).
  { eexists. reflexivity. }
  destruct Hget as [resp Hget]. exists resp. split; [exact Hget|].
  destruct (conditional_get PD V2 r [] TimedOut w w resp [entry_b]) as [H304 _].
  - exists [LFill k_b]. vm_compute. reflexivity.
  - exact Hget.
  - intros [Hq _]. apply Hq. reflexivity.
  - reflexivity.
  - apply H304. reflexivity.
Defined.

(** X12.  A GET /v1/fobs whose [wait] parameter is given and does not parse
    is answered 400 with the parser's message, in both versions; the reader
    is not registered and the cache is not read: the world is untouched. *)
Theorem bad_wait_is_rejected (ParseDuration : string -> error + Z) (v : version)
    (r : request) (fills : list keycloak) (how : wake) (w : world) (err : error) :
  query_wait r ≠ EmptyString ->
  ParseDuration (query_wait r) = inl err ->
  get_fobs ParseDuration v r fills how w = Some (w, http_Error err 400) ∧
  status (http_Error err 400) = 400 ∧
  body (http_Error err 400) = bytes_of_string err ++ [0x0A].
Proof.
  intros Hq HP. unfold get_fobs, handle_wait.
  rewrite decide_False by done. by rewrite HP.
Qed.

Lemma bad_wait_is_rejected_witness :
  get_fobs (fun _ => inl "time: invalid duration"%string) V1
    (mkRequest "soon" EmptyString) [] TimedOut init_world
  = Some (init_world, http_Error "time: invalid duration" 400).
Proof.
  apply (bad_wait_is_rejected (fun _ => inl "time: invalid duration"%string) V1
           (mkRequest "soon" EmptyString) [] TimedOut init_world
           "time: invalid duration").
  - discriminate.
  - reflexivity.
Defined.

(** ** Listing the members *)

Lemma ListUsers_loop_result (ps : list page) (all : list AccessUser) :
  ListUsers_loop ps all
  = match first_error ps with
    | Some e => inl e
    | None => inr (all ++ omap newAccessUser (fetched ps))
    end.
Proof.
  revert all. induction ps as [|p ps IH]; intros all; simpl.
  - by rewrite app_nil_r.
  - destruct p as [e|e|st|users]; [done|done|by rewrite app_nil_r|].
    destruct (length users =? 0)%nat; [by rewrite app_nil_r|].
    rewrite IH. destruct (first_error ps); [done|].
    by rewrite append_users_omap, omap_app, app_assoc.
Qed.

Lemma ListUsers_loop_stops (pre post : list page) (all : list AccessUser) :
  ListUsers_loop (pre ++ Page [] :: post) all = ListUsers_loop pre all.
Proof.
  revert all. induction pre as [|p pre IH]; intros all; simpl; [done|].
  destruct p as [e|e|st|users]; [done..|]. by destruct (length users =? 0)%nat.
Qed.

(** X13.  [ListUsers] returns the error of [ensureToken], wrapped, or else
    the error of the first request that fails, and then nothing of what it
    had gathered; when no request fails it returns, in the directory's
    order, the entries of the accepted records of the pages before the
    first empty one (or the first answer with an HTTP error status, which
    is no error to it).  What the directory would answer after an empty
    page is never asked for. *)
Theorem ListUsers_result (k : keycloak) :
  ListUsers k
  = match token_err k, first_error (pages k) with
    | Some err, _ => inl ("getting token: " ++ err)%string
    | None, Some e => inl e
    | None, None => inr (omap newAccessUser (fetched (pages k)))
    end ∧
  ∀ pre post,
    ListUsers (mkKeycloak (token_err k) (pre ++ Page [] :: post))
    = ListUsers (mkKeycloak (token_err k) pre).
Proof.
  unfold ListUsers. split.
  - destruct (token_err k); [done|]. by rewrite ListUsers_loop_result.
  - intros pre post. simpl. destruct (token_err k); [done|].
    apply ListUsers_loop_stops.
Qed.

(** ** The numbers of an entry *)

Lemma atoi_digits_bounds (bs : list Z) (n m : Z) :
  0 <= n -> atoi_digits bs n = Some m ->
  n * 10 ^ Z.of_nat (length bs) <= m < (n + 1) * 10 ^ Z.of_nat (length bs).
Proof.
  revert n. induction bs as [|ch bs IH]; intros n Hn; simpl atoi_digits.
  - intros [= <-]. simpl. lia.
  - destruct (is_digit ch) eqn:Hd; [|discriminate]. intros Hm.
    unfold is_digit in Hd. apply andb_true_iff in Hd as [H1 H2].
    apply Z.leb_le in H1, H2.
    apply IH in Hm; [|lia].
    rewrite length_cons, Nat2Z.inj_succ, Z.pow_succ_r by lia.
    assert (0 < 10 ^ Z.of_nat (length bs)) by (apply Z.pow_pos_nonneg; lia).
    nia.
Qed.

Lemma parse_uint_digits_bounds (bs : list Z) (n un : Z) (r : bool) :
  0 <= n <= maxUint64 -> parse_uint_digits bs n = inr (un, r) ->
  0 <= un <= maxUint64.
Proof.
  revert n. induction bs as [|ch bs IH]; intros n Hn; simpl.
  - by intros [= <- <-].
  - destruct (is_digit ch) eqn:Hd; [|discriminate].
    unfold is_digit in Hd. apply andb_true_iff in Hd as [H1 H2].
    apply Z.leb_le in H1, H2.
    destruct (n >=? maxUint64 / 10 + 1); [intros [= <- <-]; by vm_compute|].
    destruct (Z.gtb_spec (n * 10 + (ch - 48)) maxUint64) as [Hgt|Hle].
    + intros [= <- <-]. by vm_compute.
    + apply IH. lia.
Qed.

Lemma ParseInt_bounds (bs : list Z) : minInt64 <= fst (ParseInt bs) <= maxInt64.
Proof.
  assert (H63 : 2 ^ 63 = 9223372036854775808) by reflexivity.
  unfold ParseInt, minInt64, maxInt64. destruct bs as [|s0 rest]; [simpl; lia|].
  set (body := if (s0 =? 43) || (s0 =? 45) then rest else s0 :: rest).
  destruct (ParseUint body) as [[]|[un r]] eqn:HP; [simpl; lia|].
  assert (Hun : 0 <= un <= maxUint64).
  { unfold ParseUint in HP. destruct body; [discriminate|].
    eapply parse_uint_digits_bounds; [|exact HP]. by vm_compute. }
  destruct (s0 =? 45); simpl.
  - destruct (Z.gtb_spec un (2 ^ 63)); simpl; lia.
  - destruct (Z.geb_spec un (2 ^ 63)); simpl; lia.
Qed.

Lemma Atoi_bounds (s : string) : minInt64 <= fst (Atoi s) <= maxInt64.
Proof.
  unfold Atoi. set (bs := bytes_of_string s).
  destruct ((0 <? length bs)%nat && (length bs <? 19)%nat) eqn:Hlen;
    [|apply ParseInt_bounds].
  apply andb_true_iff in Hlen as [_ Hlt]. apply Nat.ltb_lt in Hlt.
  assert (H63 : 2 ^ 63 = 9223372036854775808) by reflexivity.
  unfold minInt64, maxInt64.
  destruct bs as [|s0 rest]; [simpl; lia|].
  set (body := if (s0 =? 45) || (s0 =? 43) then rest else s0 :: rest).
  assert (Hb : (length body <= 18)%nat).
  { subst body. simpl in Hlt. destruct ((s0 =? 45) || (s0 =? 43)); simpl; lia. }
  destruct (((s0 =? 45) || (s0 =? 43)) && (length body <? 1)%nat); [simpl; lia|].
  destruct (atoi_digits body 0) as [m|] eqn:Hm; [|simpl; lia].
  apply atoi_digits_bounds in Hm; [|lia].
  assert (10 ^ Z.of_nat (length body) <= 10 ^ 18) by (apply Z.pow_le_mono_r; lia).
  assert (H18 : 10 ^ 18 = 1000000000000000000) by reflexivity.
  destruct (s0 =? 45); simpl; lia.
Qed.

(** X14.  The [FobID] and the [QRID] of an entry fit Go's 64-bit [int],
    whatever text the attributes hold: text that is not a decimal number
    reads as zero, a number out of range as the nearest bound.  The
    [UserID] is the record's ID. *)
Theorem entry_numbers_fit_int (kcuser : User) (a : AccessUser) :
  newAccessUser kcuser = Some a ->
  ID kcuser = Some (UserID a) ∧
  minInt64 <= FobID a <= maxInt64 ∧
  minInt64 <= QRID a <= maxInt64.
Proof.
  intros H. apply newAccessUser_Some in H as (id & attr & Hid & _ & -> & _).
  simpl. split; [done|]. split; apply Atoi_bounds.
Qed.

Lemma entry_numbers_fit_int_witness :
  newAccessUser
    (mkUser (Some "big"%string)
       (Some (<["keyfobID"%string := ["99999999999999999999"%string]]> approved)))
  = Some (mkAccessUser "big" maxInt64 0 86400000) ∧
  minInt64 <= maxInt64 <= maxInt64.
Proof.
  assert (H : newAccessUser
    (mkUser (Some "big"%string)
       (Some (<["keyfobID"%string := ["99999999999999999999"%string]]> approved)))
    = Some (mkAccessUser "big" maxInt64 0 86400000)) by (vm_compute; reflexivity).
  split; [exact H|].
  exact (proj1 (proj2 (entry_numbers_fit_int _ _ H))).
Defined.

(** ** The token *)

Lemma fetch_token_trace (e : token_env) (k : token_state) :
  snd (fetch_token e k) ≠ [].
Proof.
  unfold fetch_token. destruct (client_id e); [done|].
  destruct (client_secret e); [done|]. by destruct (LoginClient e _ _ _).
Qed.

Lemma half_life_small (t : JWT) :
  0 <= ExpiresIn t <= 2 ^ 32 -> half_life t = ExpiresIn t * 500000000.
Proof.
  intros H. unfold half_life.
  assert (H32 : 2 ^ 32 = 4294967296) by reflexivity.
  assert (H63 : 2 ^ 63 = 9223372036854775808) by reflexivity.
  change Second with 1000000000.
  rewrite (wrap64_small (ExpiresIn t)) by lia.
  rewrite wrap64_small by lia.
  rewrite Z.quot_div_nonneg by lia.
  replace (ExpiresIn t * 1000000000) with (ExpiresIn t * 500000000 * 2) by lia.
  apply Z.div_mul. lia.
Qed.

(** X15.  A cached token whose lifetime is between 0 and 2^32 seconds is
    handed out again, with no file read and no login, exactly when less
    than half of that lifetime has passed since it was fetched; a token
    with lifetime zero is never handed out twice. *)
Theorem token_reused_in_first_half (e : token_env) (k : token_state) (t : JWT) :
  token k = Some t ->
  0 <= ExpiresIn t <= 2 ^ 32 ->
  (ensureToken e k = (inr t, k, []) ↔ 2 * since e < ExpiresIn t * Second) ∧
  (2 * since e < ExpiresIn t * Second -> 0 < ExpiresIn t ∨ since e < 0).
Proof.
  intros Ht He. unfold ensureToken. rewrite Ht, (half_life_small t He).
  change Second with 1000000000. split; [|lia].
  destruct (Z.ltb_spec (since e) (ExpiresIn t * 500000000)) as [Hlt|Hge].
  - split; [lia|done].
  - split; [|lia]. intros Heq. exfalso.
    apply (fetch_token_trace e k). by rewrite Heq.
Qed.

Lemma token_reused_in_first_half_witness :
  ensureToken token_env_ok token_state_cached
  = (inr (mkJWT "tok1" 60), token_state_cached, []).
Proof.
  apply (token_reused_in_first_half token_env_ok token_state_cached (mkJWT "tok1" 60)).
  - reflexivity.
  - vm_compute. split; discriminate.
  - reflexivity.
Defined.

Lemma ensureToken_outcome (e : token_env) (k k' : token_state)
    (r : error + JWT) (tr : list io) :
  ensureToken e k = (r, k', tr) ->
  match r with
  | inl _ => k' = k
  | inr t =>
      token k' = Some t ∧
      (k' = k ∧ tr = [] ∨
       k' = mkTokenState (Some t) (now e) ∧
       ∃ id sec, client_id e = inr id ∧ client_secret e = inr sec ∧
                 LoginClient e id sec realm = inr t ∧
                 tr = [IORead client_id_path; IORead client_secret_path;
                       IOLogin id sec realm])
  end.
Proof.
  unfold ensureToken.
  assert (Hf : fetch_token e k = (r, k', tr) ->
    match r with
    | inl _ => k' = k
    | inr t =>
        token k' = Some t ∧
        (k' = k ∧ tr = [] ∨
         k' = mkTokenState (Some t) (now e) ∧
         ∃ id sec, client_id e = inr id ∧ client_secret e = inr sec ∧
                   LoginClient e id sec realm = inr t ∧
                   tr = [IORead client_id_path; IORead client_secret_path;
                         IOLogin id sec realm])
    end).
  { unfold fetch_token. destruct (client_id e) as [?|id]; [by intros [= <- <- <-]|].
    destruct (client_secret e) as [?|sec]; [by intros [= <- <- <-]|].
    destruct (LoginClient e id sec realm) as [?|t] eqn:HL; intros [= <- <- <-]; [done|].
    split; [done|]. right. split; [done|]. by exists id, sec. }
  destruct (token k) as [t|] eqn:Ht; [|done].
  destruct (since e <? half_life t); [|done].
  intros [= <- <- <-]. split; [done|]. by left.
Qed.

(** X16.  A call of [ensureToken] that returns an error leaves the cached
    token and its time as they were, so a token that could not be renewed
    is not lost; a call that returns a token returns the one it leaves in
    the cache.  The login request is sent only once both credential files
    have been read, with their contents and the realm "master", and a new
    token is stamped with the time of that call. *)
Theorem ensureToken_keeps_or_renews (e : token_env) (k k' : token_state)
    (r : error + JWT) (tr : list io) :
  ensureToken e k = (r, k', tr) ->
  (∀ err, r = inl err -> k' = k) ∧
  (∀ t, r = inr t -> token k' = Some t) ∧
  (k' = k ∨ ∃ t, r = inr t ∧ k' = mkTokenState (Some t) (now e)) ∧
  (∀ id sec rl, IOLogin id sec rl ∈ tr ->
     client_id e = inr id ∧ client_secret e = inr sec ∧ rl = realm).
Proof.
  intros H. pose proof (ensureToken_outcome e k k' r tr H) as Ho.
  assert (Hlogin : ∀ id sec rl, IOLogin id sec rl ∈ tr ->
            client_id e = inr id ∧ client_secret e = inr sec ∧ rl = realm).
  { clear Ho. revert H. unfold ensureToken, fetch_token.
    intros H id sec rl Hin.
    repeat case_match; simplify_eq;
      repeat (apply elem_of_cons in Hin as [Hin|Hin]; simplify_eq);
      try (by apply not_elem_of_nil in Hin); done. }
  split_and!; [| | |done].
  - intros err ->. done.
  - intros t ->. by destruct Ho.
  - destruct r as [err|t]; [by left|].
    destruct Ho as [_ [[-> _]|[-> _]]]; [by left|right; eauto].
Qed.

Lemma ensureToken_keeps_or_renews_witness :
  ensureToken token_env_no_file token_state_cached
  = (inl "reading client id: no such file"%string, token_state_cached,
     [IORead client_id_path]).
Proof.
  assert (H : ∃ r k' tr, ensureToken token_env_no_file token_state_cached = (r, k', tr) ∧
                         r = inl "reading client id: no such file"%string ∧
                         tr = [IORead client_id_path]).
  { do 3 eexists. split_and!; reflexivity. }
  destruct H as (r & k' & tr & H & -> & ->).
  destruct (ensureToken_keeps_or_renews _ _ _ _ _ H) as (Herr & _).
  rewrite H. by rewrite (Herr _ eq_refl).
Defined.

(** ** The webhook *)

Lemma hook_exists_true (url : string) (hs : list Webhook) :
  (∃ h, h ∈ hs ∧ URL h = url) -> hook_exists url (map Some hs) = Some true.
Proof.
  induction hs as [|h0 hs IH]; intros (h & Hin & Hurl); simpl.
  - by apply not_elem_of_nil in Hin.
  - case_decide; [done|]. apply IH.
    apply elem_of_cons in Hin as [->|Hin]; [done|eauto].
Qed.

Lemma hook_exists_false (url : string) (hs : list Webhook) :
  (∀ h, h ∈ hs -> URL h ≠ url) -> hook_exists url (map Some hs) = Some false.
Proof.
  induction hs as [|h0 hs IH]; intros Hall; simpl; [done|].
  rewrite decide_False by (apply Hall, list_elem_of_here).
  apply IH. intros h Hin. by apply Hall, list_elem_of_further.
Qed.

Lemma hook_exists_found (url : string) (hs : list Webhook) :
  hook_exists url (map Some hs) = Some true -> ∃ h, h ∈ hs ∧ URL h = url.
Proof.
  induction hs as [|h0 hs IH]; simpl; [discriminate|].
  case_decide as Hd.
  - intros _. exists h0. split; [apply list_elem_of_here|done].
  - intros Hfind. destruct (IH Hfind) as (h & Hin & Hu).
    exists h. split; [by apply list_elem_of_further|done].
Qed.

(** X17.  [EnsureWebhook] posts nothing and returns no error when the
    listing holds a webhook whose URL is the callback URL followed by
    "/webhook" - whether or not that webhook is enabled and whatever its
    event types.  When the listing holds none and the token is at hand, it
    posts exactly one webhook: enabled, with that URL and the event types
    "admin.*", and returns the error of the POST, if any. *)
Theorem EnsureWebhook_posts_only_if_absent (e : webhook_env) (callbackURL : string)
    (hs : list Webhook) :
  ListWebhooks e = inr (map Some hs) ->
  ((∃ h, h ∈ hs ∧ URL h = (callbackURL ++ "/webhook")%string) ->
     EnsureWebhook e callbackURL = Some (None, [])) ∧
  ((∀ h, h ∈ hs -> URL h ≠ (callbackURL ++ "/webhook")%string) ->
     create_token_err e = None ->
     EnsureWebhook e callbackURL
     = Some (create_err e,
             [mkWebhook EmptyString true (callbackURL ++ "/webhook")
                ["admin.*"%string]])).
Proof.
  intros HL. unfold EnsureWebhook. rewrite HL. split.
  - intros Hex. by rewrite (hook_exists_true _ hs Hex).
  - intros Hall Htok. rewrite (hook_exists_false _ hs Hall). simpl.
    unfold CreateWebhook. by rewrite Htok.
Qed.

Lemma EnsureWebhook_posts_only_if_absent_witness :
  EnsureWebhook (webhook_env_with [hook_here]) "http://fobsvr" = Some (None, []).
Proof.
  apply (EnsureWebhook_posts_only_if_absent (webhook_env_with [hook_here])
           "http://fobsvr" [hook_here]).
  - reflexivity.
  - exists hook_here. split; [apply list_elem_of_here|reflexivity].
Defined.

(** X18.  [EnsureWebhook] is idempotent against a directory that keeps
    what it is sent: after a call that returned no error, a second call
    whose listing still holds the URLs of the first listing and of what the
    first call posted posts nothing and returns no error. *)
Theorem EnsureWebhook_twice (e1 e2 : webhook_env) (callbackURL : string)
    (hs1 hs2 posted : list Webhook) :
  ListWebhooks e1 = inr (map Some hs1) ->
  ListWebhooks e2 = inr (map Some hs2) ->
  EnsureWebhook e1 callbackURL = Some (None, posted) ->
  (∀ h, h ∈ hs1 ++ posted -> ∃ h', h' ∈ hs2 ∧ URL h' = URL h) ->
  EnsureWebhook e2 callbackURL = Some (None, []).
Proof.
  intros HL1 HL2 H1 Hkept.
  assert (Hex : ∃ h, h ∈ hs1 ++ posted ∧ URL h = (callbackURL ++ "/webhook")%string).
  { revert H1. unfold EnsureWebhook. rewrite HL1.
    destruct (hook_exists _ (map Some hs1)) as [[]|] eqn:Hfind; simpl; [| |done].
    - intros _. destruct (hook_exists_found _ hs1 Hfind) as (h & Hin & Hu).
      exists h. split; [|done]. apply elem_of_app. by left.
    - unfold CreateWebhook. destruct (create_token_err e1); [discriminate|].
      intros [= _ <-].
      exists (mkWebhook EmptyString true (callbackURL ++ "/webhook") ["admin.*"%string]).
      split; [|done]. apply elem_of_app. right. apply list_elem_of_here. }
  destruct Hex as (h & Hin & Hurl). destruct (Hkept h Hin) as (h' & Hin' & Hu').
  unfold EnsureWebhook. rewrite HL2.
  rewrite (hook_exists_true _ hs2); [done|]. exists h'. by rewrite Hu'.
Qed.

Lemma EnsureWebhook_twice_witness :
  EnsureWebhook
    (webhook_env_with [mkWebhook "9" true "http://fobsvr/webhook" ["admin.*"%string]])
    "http://fobsvr"
  = Some (None, []).
Proof.
  apply (EnsureWebhook_twice (webhook_env_with []) _ "http://fobsvr" []
           [mkWebhook "9" true "http://fobsvr/webhook" ["admin.*"%string]]
           [mkWebhook EmptyString true "http://fobsvr/webhook" ["admin.*"%string]]).
  - reflexivity.
  - reflexivity.
  - reflexivity.
  - intros h Hin. simpl in Hin. apply list_elem_of_singleton in Hin as ->.
    eexists. split; [apply list_elem_of_here|reflexivity].
Defined.

(** X19.  Without a callback URL [main] sends the directory nothing and
    starts.  With one, [main] panics when the listing fails, nothing having
    been posted.  And whenever [main] starts, it has posted nothing, or
    exactly one webhook - enabled, for the callback URL followed by
    "/webhook" - and then only because the listing held no webhook with that
    URL and the POST returned no error. *)
Theorem startup_posts_at_most_one (e : webhook_env) (callbackURL : string) :
  main_startup e EmptyString = Started [] ∧
  (∀ err, callbackURL ≠ EmptyString -> ListWebhooks e = inl err ->
     EnsureWebhook e callbackURL = Some (Some ("listing: " ++ err)%string, []) ∧
     main_startup e callbackURL = Panicked) ∧
  (∀ posted, main_startup e callbackURL = Started posted ->
     posted = [] ∨
     posted = [mkWebhook EmptyString true (callbackURL ++ "/webhook")
                 ["admin.*"%string]] ∧
     create_err e = None ∧
     ∃ hooks, ListWebhooks e = inr hooks ∧
              hook_exists (callbackURL ++ "/webhook") hooks = Some false).
Proof.
  split_and!; [done| |].
  - intros err Hne HL. unfold main_startup. rewrite decide_False by done.
    unfold EnsureWebhook. by rewrite HL.
  - intros posted. unfold main_startup. case_decide; [intros [= <-]; by left|].
    unfold EnsureWebhook.
    destruct (ListWebhooks e) as [err|hooks] eqn:HL; [done|]. simpl.
    destruct (hook_exists _ hooks) as [[]|] eqn:Hfind; simpl; [| |done].
    + intros [= <-]. by left.
    + unfold CreateWebhook. destruct (create_token_err e); [done|].
      destruct (create_err e) eqn:Hc; [done|]. intros [= <-].
      right. split_and!; [done..|]. by exists hooks.
Qed.

Lemma startup_posts_at_most_one_witness :
  main_startup (mkWebhookEnv (Some "connection refused"%string) (inr []) None None)
    "http://fobsvr"
  = Panicked.
Proof.
  destruct (startup_posts_at_most_one
              (mkWebhookEnv (Some "connection refused"%string) (inr []) None None)
              "http://fobsvr") as (_ & Herr & _).
  destruct (Herr "getting token: connection refused"%string) as [_ Hp];
    [discriminate|reflexivity|].
  exact Hp.
Defined.

(** ** The loop and the cache together *)

(** X20.  A pass of the revised loop over a reachable cache, by what
    [ListUsers] returns.  If it returns a list - as it also does when the
    directory answers with an HTTP error status - the pass ends back at
    [for range refresh] with [lastRetry] zero and nothing slept, the cache
    holds a snapshot with the fingerprint of that list, and /healthz
    answers 204.  If it returns an error, the world is untouched and the
    loop sleeps the next backoff delay once before it is back at
    [for range refresh]. *)
Theorem loop_pass_outcome (resync : Z) (k : keycloak) (d : driver) (w : world) :
  reachable w ->
  pc d = AtFill ->
  (∀ users, ListUsers k = inr users ->
     ∃ w', loop_pass V2 resync k d w
           = Some (mkDriver AtRange 0 (refresh d), [EvFill None], w') ∧
           hash (the_cache w') = calculateUsersHash (sort_Slice users) ∧
           get_healthz V2 w' = just_status 204) ∧
  (∀ err, ListUsers k = inl err ->
     loop_pass V2 resync k d w
     = Some (mkDriver AtRange (backoff resync (lastRetry d)) (refresh d),
             [EvFill (Some err); EvSleep (backoff resync (lastRetry d))], w)).
Proof.
  intros Hr Hpc. pose proof (reachable_inv w Hr) as Hinv.
  unfold loop_pass. rewrite Hpc. split.
  - intros users HL. destruct (Fill_progress k w Hinv) as (o & w' & HF).
    rewrite HF. simpl.
    destruct (Fill_hash k users w w' o HL HF) as [-> Hh]. simpl.
    exists w'. split_and!; [done..|].
    pose proof (inv_Fill k w w' None Hinv HF) as Hinv'.
    unfold get_healthz, Load. simpl.
    destruct (state (the_cache w')) eqn:Hs; [done|]. exfalso.
    apply (calculateUsersHash_nonempty (sort_Slice users)).
    rewrite <- Hh. by apply (inv_unwarmed w' Hinv').
  - intros err HL. by rewrite (Fill_error k err w HL).
Qed.

Lemma loop_pass_outcome_witness :
  ∃ w', loop_pass V2 Hour k_b (mkDriver AtFill 0 0) world_one_waiter
        = Some (mkDriver AtRange 0 0, [EvFill None], w').
Proof.
  destruct (loop_pass_outcome Hour k_b (mkDriver AtFill 0 0) world_one_waiter)
    as [Hok _].
  - exists [LRegister]. reflexivity.
  - reflexivity.
  - destruct (Hok [entry_b]) as (w' & H & _); [reflexivity|]. by exists w'.
Defined.
